(** * EcoGuía: dialogue traversal, name normalisation and reservation lookup

    Shallow embedding of [eco_guia_backend.py] (dialogue engine and
    [/api/reservas] search) and of the enrichment loop of
    [fix_fill_reservas.py], with the properties stated about them. *)

From Stdlib Require Import NArith ZArith QArith_base Ascii String.
From stdpp Require Import base option list gmap pretty.

Local Open Scope N_scope.

(** ** Python strings

    A Python [str] is a sequence of Unicode code points. *)

Abbreviation codepoint := N (only parsing).
Abbreviation pystr := (list N) (only parsing).

(** ASCII literals. *)
Definition py (s : string) : pystr := N_of_ascii <$> list_ascii_of_string s.

Definition SP : codepoint := 32.

(** ** The Python runtime

    What the scripts call from the standard library and the interpreter:
    the Unicode character database behind [str.lower], [str.isalnum],
    [str.isspace] (also behind [strip], [split] and the regex classes
    [\s], [\w]) and [unicodedata]; truthiness and [str()] of JSON values
    that are not strings (null, numbers, booleans, arrays, objects); and
    [difflib.get_close_matches]. *)

Class Runtime := {
  str_lower : pystr → pystr;
  normalize_NFKD : pystr → pystr;
  combining : codepoint → N;
  isalnum : codepoint → bool;
  isspace : codepoint → bool;
  other : Type;
  truthy : other → bool;
  str_of : other → pystr;
  get_close_matches : pystr → list pystr → nat → Q → list pystr;
}.

(** A value held in a JSON object: a string, or anything else. *)
Inductive value `{Runtime} :=
  | VStr (s : pystr)
  | VOther (o : other).

Section Strings.
Context `{RT : Runtime}.

(** [s.lstrip()], [s.strip()] with no argument: whitespace is removed. *)
Fixpoint lstrip (s : pystr) : pystr :=
  match s with
  | [] => []
  | c :: s' => if isspace c then lstrip s' else s
  end.

Definition strip (s : pystr) : pystr :=
  reverse (lstrip (reverse (lstrip s))).

(** Does [s] begin with a character that is not whitespace? *)
Definition starts_word (s : pystr) : bool :=
  match s with
  | [] => false
  | c :: _ => negb (isspace c)
  end.

(** [s.split()]: the maximal runs of non-whitespace characters. *)
Fixpoint split (s : pystr) : list pystr :=
  match s with
  | [] => []
  | c :: s' =>
      if isspace c then split s'
      else if starts_word s' then
        match split s' with
        | w :: ws => (c :: w) :: ws
        | [] => [[c]]
        end
      else [c] :: split s'
  end.

(** [sep.join(l)] for a one-character separator. *)
Fixpoint join (sep : codepoint) (l : list pystr) : pystr :=
  match l with
  | [] => []
  | [w] => w
  | w :: ws => w ++ sep :: join sep ws
  end.

(** [p] is a prefix of [s]. *)
Fixpoint startswith (s p : pystr) : bool :=
  match p, s with
  | [], _ => true
  | a :: p', b :: s' => bool_decide (a = b) && startswith s' p'
  | _ :: _, [] => false
  end.

(** [needle in hay] on strings. *)
Fixpoint str_in (needle hay : pystr) : bool :=
  startswith hay needle ||
  match hay with
  | [] => false
  | _ :: hay' => str_in needle hay'
  end.

(** ** [_normalize_name] (eco_guia_backend.py) *)

(** [ch if (ch.isalnum() or ch.isspace() or ch in "-_") else ' '] *)
Definition keep_or_space (ch : codepoint) : codepoint :=
  if isalnum ch || isspace ch || bool_decide (ch ∈ py "-_") then ch else SP.

(** The body of [_normalize_name], after [str(s)]. *)
Definition normalize_text (s : pystr) : pystr :=
  let s2 := str_lower (strip s) in
  let s2 := normalize_NFKD s2 in
  let s2 := filter (λ ch, combining ch = 0) s2 in
  let s2 := keep_or_space <$> s2 in
  join SP (split s2).

(** [not s] for an optional value. *)
Definition falsy (s : option value) : bool :=
  match s with
  | None => true
  | Some (VStr s) => bool_decide (s = [])
  | Some (VOther o) => negb (truthy o)
  end.

(** [str(s)]. *)
Definition py_str (v : value) : pystr :=
  match v with
  | VStr s => s
  | VOther o => str_of o
  end.

Definition _normalize_name (s : option value) : pystr :=
  match s with
  | None => []
  | Some v => if falsy s then [] else normalize_text (py_str v)
  end.

End Strings.

(** ** Reservation records and [/api/reservas] *)

(** A record of [reservas_unificadas.json]: a JSON object. *)
Abbreviation record := (gmap (list N) value) (only parsing).

Section Search.
Context `{RT : Runtime}.

(** [_normalize_name(r.get("nombre"))] *)
Definition nombre_norm (r : record) : pystr :=
  _normalize_name (r !! py "nombre").

(** The inner loop of the fuzzy tier: the first record, in table
    order, whose normalised name is [m]; the [break] stops the scan. *)
Fixpoint first_named (m : pystr) (reservas_list : list record) : option record :=
  match reservas_list with
  | [] => None
  | r :: rest =>
      if bool_decide (nombre_norm r = m) then Some r else first_named m rest
  end.

(** The outer loop: [results] after all of [matches] were visited. *)
Fixpoint resolve_matches (matches : list pystr) (reservas_list : list record)
  : list record :=
  match matches with
  | [] => []
  | m :: ms =>
      match first_named m reservas_list with
      | Some r => r :: resolve_matches ms reservas_list
      | None => resolve_matches ms reservas_list
      end
  end.

Definition cutoff_search : Q := 6 # 10.

(** [api_reservas]: [q] is the query parameter, [None] when the
    request has none; the result is the list handed to [jsonify]. *)
Definition api_reservas (reservas_list : list record) (q : option pystr)
  : list record :=
  let q := strip (default [] q) in
  if bool_decide (q = []) then []
  else
    let nq := _normalize_name (Some (VStr q)) in
    let exact := filter (λ r, nombre_norm r = nq) reservas_list in
    if negb (bool_decide (exact = [])) then take 5 exact
    else
      let contains := filter (λ r, str_in nq (nombre_norm r)) reservas_list in
      if negb (bool_decide (contains = [])) then take 5 contains
      else
        let candidates := nombre_norm <$> reservas_list in
        let matches := get_close_matches nq candidates 5 cutoff_search in
        take 5 (resolve_matches matches reservas_list).

End Search.

(** ** The dialogue graph *)

(** An entry of a node's ["options"]; [None] is an absent key. *)
Record menu_option := {
  opt_id : option pystr;
  opt_label : option pystr;
  opt_next_node_id : option pystr;
}.

(** A node descriptor of the bot definition; [None] is an absent key. *)
Record node := {
  node_id : option pystr;
  node_type : option pystr;
  message : option pystr;
  options : option (list menu_option);
  next_node_id : option pystr;
}.

(** The parsed bot definition. *)
Record bot_definition := {
  def_nodes : option (list node);
  def_start_node_id : option pystr;
}.

(** The texts of the [ValueError]s of [resolve_next_node]. *)
Inductive error_text :=
  | Nodo_no_encontrado (current_node_id : pystr)
  | Falta_option_id
  | Option_no_existe (option_id current_node_id : pystr)
  | Next_node_id_no_existe (next_node_id : pystr)
  | Nodo_input_sin_next (current_node_id : pystr).

Inductive error :=
  | KeyError (key : pystr)
  | ValueError (text : error_text).

Inductive result (A : Type) :=
  | Ok (a : A)
  | Raise (e : error).
Arguments Ok {A} a.
Arguments Raise {A} e.

#[export] Instance result_ret : MRet result := λ A a, Ok a.
#[export] Instance result_bind : MBind result := λ A B f r,
  match r with
  | Ok a => f a
  | Raise e => Raise e
  end.

(** The error kinds of the specification, read off the [ValueError]
    a menu or response node raises: a missing [option_id] is an
    InputError; an option that does not lead anywhere, or leads to an id
    outside the graph, is a NotFoundError. *)
Definition InputError (e : error) : Prop :=
  e = ValueError Falta_option_id.

Definition NotFoundError (e : error) : Prop :=
  match e with
  | ValueError (Option_no_existe _ _) => True
  | ValueError (Next_node_id_no_existe _) => True
  | _ => False
  end.

(** What module start-up keeps of the definition. *)
Record graph := {
  nodes_index : gmap (list N) node;
  start_node_id : pystr;
}.

(** [{node["id"]: node for node in nodes}], on top of [acc]. *)
Fixpoint index_nodes (nodes : list node) (acc : gmap (list N) node)
  : result (gmap (list N) node) :=
  match nodes with
  | [] => Ok acc
  | n :: rest =>
      match node_id n with
      | None => Raise (KeyError (py "id"))
      | Some i => index_nodes rest (<[i := n]> acc)
      end
  end.

(** Module start-up (lines 18 to 20), on the parsed definition. *)
Definition load_bot (d : bot_definition) : result graph :=
  match def_nodes d with
  | None => Raise (KeyError (py "nodes"))
  | Some nodes =>
      idx ← index_nodes nodes ∅;
      mret {| nodes_index := idx;
              start_node_id := default (py "inicio_menu") (def_start_node_id d) |}
  end.

(** ** [node_to_payload] *)

Record payload := {
  p_node_id : option pystr;
  p_type : pystr;
  p_message : pystr;
  p_options : list (option pystr * pystr);
  expects_input : bool;
  is_end : bool;
}.

(** The default label, "Opción". *)
Definition Opcion : pystr := py "Opci" ++ [243] ++ py "n".

Definition node_to_payload (n : node) : payload :=
  let type := default (py "response") (node_type n) in
  {| p_node_id := node_id n;
     p_type := type;
     p_message := default [] (message n);
     p_options := (λ opt, (opt_id opt, default Opcion (opt_label opt)))
                    <$> default [] (options n);
     expects_input := bool_decide (type = py "input");
     is_end := bool_decide (type = py "end") |}.

(** ** [resolve_next_node] *)

(** [not s] for an optional string. *)
Definition unset (s : option pystr) : bool :=
  match s with
  | None | Some [] => true
  | Some (_ :: _) => false
  end.

(** The scan of the options: [next_node_id] when the loop ends. *)
Fixpoint scan_options (option_id : pystr) (opts : list menu_option)
  : option pystr :=
  match opts with
  | [] => None
  | opt :: rest =>
      if bool_decide (opt_id opt = Some option_id) then opt_next_node_id opt
      else scan_options option_id rest
  end.

(** [nodes_index[next]] behind its membership test. *)
Definition goto (idx : gmap (list N) node) (next : pystr) : result node :=
  match idx !! next with
  | Some n => Ok n
  | None => Raise (ValueError (Next_node_id_no_existe next))
  end.

Definition resolve_next_node (idx : gmap (list N) node)
    (current_node_id : pystr) (option_id user_input : option pystr)
  : result node :=
  match idx !! current_node_id with
  | None => Raise (ValueError (Nodo_no_encontrado current_node_id))
  | Some current_node =>
      let type := node_type current_node in
      if bool_decide (type = Some (py "menu") ∨ type = Some (py "response")) then
        if unset option_id then Raise (ValueError Falta_option_id)
        else
          let oid := default [] option_id in
          let next := scan_options oid (default [] (options current_node)) in
          if unset next then
            Raise (ValueError (Option_no_existe oid current_node_id))
          else goto idx (default [] next)
      else if bool_decide (type = Some (py "input")) then
        let next := next_node_id current_node in
        if unset next then
          Raise (ValueError (Nodo_input_sin_next current_node_id))
        else goto idx (default [] next)
      else if bool_decide (type = Some (py "end")) then Ok current_node
      else
        match next_node_id current_node with
        | Some next => Ok (default current_node (idx !! next))
        | None => Ok current_node
        end
  end.

(** ** [/api/start] *)

Inductive response :=
  | Json (p : payload)
  | JsonError (status : nat) (start : pystr).

Definition api_start (g : graph) : response :=
  match nodes_index g !! start_node_id g with
  | None => JsonError 500 (start_node_id g)
  | Some n => Json (node_to_payload n)
  end.

(** ** [/api/step] *)

(** A field of the request body, a JSON value: a string, or a value
    that is not a string, of which the code only uses whether it is
    truthy and whether it is hashable (an array and an object are not;
    null, a boolean and a number are). *)
Inductive field :=
  | FStr (s : pystr)
  | FOther (is_truthy is_hashable : bool).

(** The parsed request body: a JSON object with its three fields
    ([None] when the object has no such key), or another JSON value. *)
Inductive body :=
  | Body_object (node_id option_id user_input : option field)
  | Body_other (is_truthy : bool).

(** [not f] for a field. *)
Definition field_unset (f : option field) : bool :=
  match f with
  | None => true
  | Some (FStr s) => unset (Some s)
  | Some (FOther is_truthy _) => negb is_truthy
  end.

(** What [resolve_next_node] raises when it is called on such fields:
    a [ValueError] with one of its texts; a [ValueError] whose text
    shows a value that is not a string; the [TypeError] of looking up
    an unhashable key. *)
Inductive step_exception :=
  | Value_error (text : error_text)
  | Value_error_of_value
  | Type_error.

Inductive step_result :=
  | Next (n : node)
  | Raises (e : step_exception).

(** [nodes_index[next]] behind its membership test. *)
Definition goto_step (idx : gmap (list N) node) (next : pystr) : step_result :=
  match idx !! next with
  | Some n => Next n
  | None => Raises (Value_error (Next_node_id_no_existe next))
  end.

(** [resolve_next_node] as [api_step] calls it, on the fields of the
    body. The ids of the graph are strings: a key that is not a string
    is in no index (when it can be hashed at all), and an [option_id]
    that is not a string equals the id of no option. *)
Definition resolve_request (idx : gmap (list N) node)
    (current_node_id option_id user_input : option field) : step_result :=
  match current_node_id with
  | Some (FOther _ false) => Raises Type_error
  | None | Some (FOther _ true) => Raises Value_error_of_value
  | Some (FStr current_node_id) =>
      match idx !! current_node_id with
      | None => Raises (Value_error (Nodo_no_encontrado current_node_id))
      | Some current_node =>
          let type := node_type current_node in
          if bool_decide (type = Some (py "menu") ∨ type = Some (py "response")) then
            if field_unset option_id then Raises (Value_error Falta_option_id)
            else
              match option_id with
              | Some (FStr oid) =>
                  let next := scan_options oid (default [] (options current_node)) in
                  if unset next then
                    Raises (Value_error (Option_no_existe oid current_node_id))
                  else goto_step idx (default [] next)
              | _ => Raises Value_error_of_value
              end
          else if bool_decide (type = Some (py "input")) then
            let next := next_node_id current_node in
            if unset next then
              Raises (Value_error (Nodo_input_sin_next current_node_id))
            else goto_step idx (default [] next)
          else if bool_decide (type = Some (py "end")) then Next current_node
          else
            match next_node_id current_node with
            | Some next => Next (default current_node (idx !! next))
            | None => Next current_node
            end
      end
  end.

(** What the error body of [/api/step] reports. *)
Inductive step_error :=
  | Missing_node_id
  | Raised (e : step_exception).

(** The answer of [api_step], or the exception that leaves it: the
    [AttributeError] of reading the fields of a body that is not an
    object, which happens outside the [try]. *)
Inductive step_response :=
  | StepJson (p : payload)
  | StepError (status : nat) (e : step_error)
  | StepRaises.

(** [api_step] on the parsed body [data]; a falsy body counts as the
    empty object. A [ValueError] is answered with status 400, any other
    exception of the step with status 500. *)
Definition api_step (idx : gmap (list N) node) (data : body) : step_response :=
  match data with
  | Body_other true => StepRaises
  | Body_other false => StepError 400 Missing_node_id
  | Body_object node_id option_id user_input =>
      if field_unset node_id then StepError 400 Missing_node_id
      else
        match resolve_request idx node_id option_id user_input with
        | Next next_node => StepJson (node_to_payload next_node)
        | Raises (Value_error text) => StepError 400 (Raised (Value_error text))
        | Raises Value_error_of_value => StepError 400 (Raised Value_error_of_value)
        | Raises Type_error => StepError 500 (Raised Type_error)
        end
  end.

(** ** Ordered dictionaries

    The dictionaries of [fix_fill_reservas.py] are iterated, so their
    insertion order is kept: an association list with distinct keys. *)

Section Dict.
Context {V : Type}.

Fixpoint dict_get (k : pystr) (d : list (list N * V)) : option V :=
  match d with
  | [] => None
  | (k', v) :: d' => if bool_decide (k' = k) then Some v else dict_get k d'
  end.

(** [d[k] = v]: a present key keeps its place. *)
Fixpoint dict_set (k : pystr) (v : V) (d : list (list N * V))
  : list (list N * V) :=
  match d with
  | [] => [(k, v)]
  | (k', v') :: d' =>
      if bool_decide (k' = k) then (k', v) :: d'
      else (k', v') :: dict_set k v d'
  end.

(** [d[k]] *)
Definition subscript (d : list (list N * V)) (k : pystr) : result V :=
  match dict_get k d with
  | Some v => Ok v
  | None => Raise (KeyError k)
  end.

End Dict.

(** ** The enrichment loop of [fix_fill_reservas.py] *)

(** The fields one entry of [mapping] fills in. *)
Abbreviation fields := (list (list N * list N)) (only parsing).

Section Unify.
Context `{RT : Runtime}.

Definition starts_space (s : pystr) : bool :=
  match s with
  | [] => false
  | c :: _ => isspace c
  end.

(** The third [re.sub]: each run of whitespace becomes one space. *)
Fixpoint collapse_spaces (s : pystr) : pystr :=
  match s with
  | [] => []
  | c :: s' =>
      if isspace c then
        if starts_space s' then collapse_spaces s' else SP :: collapse_spaces s'
      else c :: collapse_spaces s'
  end.

(** The first [re.sub], on one character: round, square, curly and
    angle brackets and the double quote become a space. *)
Definition bracket_to_space (ch : codepoint) : codepoint :=
  if bool_decide (ch ∈ py "()[]{}<>" ++ [34]) then SP else ch.

(** The second [re.sub], on one character: what is neither a word
    character ([\w]: alphanumeric or underscore), nor whitespace, nor a
    hyphen becomes a space. *)
Definition word_or_space (ch : codepoint) : codepoint :=
  if isalnum ch || bool_decide (ch = 95) || isspace ch || bool_decide (ch = 45)
  then ch else SP.

Definition normalize_name (s : value) : pystr :=
  match s with
  | VOther _ => []
  | VStr s =>
      let s := strip s in
      if bool_decide (str_lower s ∈ [py "nan"; py "none"; py "null"; []])
      then []
      else
        let s := normalize_NFKD s in
        let s := filter (λ ch, combining ch = 0) s in
        let s := bracket_to_space <$> s in
        let s := word_or_space <$> s in
        let s := collapse_spaces s in
        strip (str_lower s)
  end.

(** [norm_to_key], built over the keys of [mapping] in order. *)
Definition add_norm_key (d : list (list N * list N)) (k : pystr)
  : list (list N * list N) :=
  let nk := normalize_name (VStr k) in
  if bool_decide (nk = []) then d else dict_set nk k d.

Definition build_norm_to_key (mapping : list (list N * fields))
  : list (list N * list N) :=
  foldl add_norm_key [] mapping.*1.

(** [for kk, vv in vals.items(): rec[kk] = vv] *)
Definition fill (vals : fields) (rec : record) : record :=
  foldl (λ r kv, <[kv.1 := VStr kv.2]> r) rec vals.

(** The counters and lists the loop reports. *)
Record report := {
  updated : nat;
  not_found : list (option value);
  fuzzy_matches : list (list N * list N);
}.

Definition report0 : report :=
  {| updated := 0; not_found := []; fuzzy_matches := [] |}.

Definition count_updated (st : report) : report :=
  {| updated := S (updated st); not_found := not_found st;
     fuzzy_matches := fuzzy_matches st |}.

Definition add_not_found (name : option value) (st : report) : report :=
  {| updated := updated st; not_found := not_found st ++ [name];
     fuzzy_matches := fuzzy_matches st |}.

Definition add_fuzzy (name mk : pystr) (st : report) : report :=
  {| updated := updated st; not_found := not_found st;
     fuzzy_matches := fuzzy_matches st ++ [(name, mk)] |}.

Definition cutoff_unify : Q := 75 # 100.

(** One iteration of [for rec in records]: the record as the
    iteration leaves it, and the report. *)
Definition unify_record (mapping : list (list N * fields))
    (norm_to_key : list (list N * list N)) (rec : record) (st : report)
  : result (record * report) :=
  match rec !! py "nombre" with
  | Some (VStr name) =>
      match dict_get name mapping with
      | Some vals => Ok (fill vals rec, count_updated st)
      | None =>
          let nname := normalize_name (VStr name) in
          if bool_decide (nname ≠ []) && bool_decide (is_Some (dict_get nname norm_to_key))
          then
            mk ← subscript norm_to_key nname;
            vals ← subscript mapping mk;
            Ok (fill vals rec, count_updated st)
          else if bool_decide (nname ≠ []) then
            let candidates := norm_to_key.*1 in
            match get_close_matches nname candidates 1 cutoff_unify with
            | matched_norm :: _ =>
                mk ← subscript norm_to_key matched_norm;
                vals ← subscript mapping mk;
                Ok (fill vals rec, add_fuzzy name mk (count_updated st))
            | [] => Ok (rec, add_not_found (Some (VStr name)) st)
            end
          else Ok (rec, add_not_found (Some (VStr name)) st)
      end
  | name => Ok (rec, add_not_found name st)
  end.

(** The loop over [records]. *)
Fixpoint unify_loop (mapping : list (list N * fields))
    (norm_to_key : list (list N * list N)) (records : list record)
    (st : report) : result (list record * report) :=
  match records with
  | [] => Ok ([], st)
  | rec :: rest =>
      '(rec', st') ← unify_record mapping norm_to_key rec st;
      '(rest', st'') ← unify_loop mapping norm_to_key rest st';
      Ok (rec' :: rest', st'')
  end.

(** The script from line 392 on: the records written back to
    [reservas_unificadas.json], and the report printed. *)
Definition unify (mapping : list (list N * fields)) (records : list record)
  : result (list record * report) :=
  unify_loop mapping (build_norm_to_key mapping) records report0.

End Unify.

(** ** Column names ([procesar_reservas.py]) *)

Section Columns.
Context `{RT : Runtime}.

(** [{key(col): col for col in columns}], in the order of the columns. *)
Definition index_by (key : pystr → pystr) (columns : list pystr)
  : list (list N * list N) :=
  foldl (λ d col, dict_set (key col) col d) [] columns.

(** The inner [normalize] of [_find_first_existing_column]: lower case,
    then everything but the letters a to z and the digits removed. *)
Definition is_az09 (c : codepoint) : bool :=
  ((97 <=? c) && (c <=? 122)) || ((48 <=? c) && (c <=? 57)).

Definition normalize_key (s : pystr) : pystr :=
  filter (λ c, is_az09 c) (str_lower s).

(** [nc in ncol or ncol in nc] *)
Definition overlaps (a b : pystr) : bool := str_in a b || str_in b a.

(** What the call returns, or the [ValueError] it raises. *)
Inductive column_result :=
  | Column (c : pystr)
  | Ninguna_columna (candidates : list pystr).

(** First pass: the first candidate that is a column. *)
Fixpoint first_exact (columns candidates : list pystr) : option pystr :=
  match candidates with
  | [] => None
  | c :: cs =>
      if bool_decide (c ∈ columns) then Some c else first_exact columns cs
  end.

(** Second pass: the column indexed under the lower case of the first
    candidate that has one. *)
Fixpoint first_lower (cols_lower : list (list N * list N))
    (candidates : list pystr) : option pystr :=
  match candidates with
  | [] => None
  | c :: cs =>
      match dict_get (str_lower c) cols_lower with
      | Some col => Some col
      | None => first_lower cols_lower cs
      end
  end.

(** Third pass, inner loop: the first item whose key overlaps [nc]. *)
Fixpoint first_overlapping (nc : pystr) (items : list (list N * list N))
  : option pystr :=
  match items with
  | [] => None
  | (ncol, orig) :: rest =>
      if overlaps nc ncol then Some orig else first_overlapping nc rest
  end.

Fixpoint first_contained (normalized_cols : list (list N * list N))
    (candidates : list pystr) : option pystr :=
  match candidates with
  | [] => None
  | c :: cs =>
      match first_overlapping (normalize_key c) normalized_cols with
      | Some orig => Some orig
      | None => first_contained normalized_cols cs
      end
  end.

(** Fourth pass, inner loop: the first column whose key overlaps [key]. *)
Fixpoint first_keyword_column (key : pystr) (columns : list pystr)
  : option pystr :=
  match columns with
  | [] => None
  | col :: rest =>
      if overlaps key (normalize_key col) then Some col
      else first_keyword_column key rest
  end.

Fixpoint first_keyword (columns candidates : list pystr) : option pystr :=
  match candidates with
  | [] => None
  | c :: cs =>
      match first_keyword_column (normalize_key c) columns with
      | Some col => Some col
      | None => first_keyword columns cs
      end
  end.

(** [_find_first_existing_column], on the column names of the frame. *)
Definition _find_first_existing_column (columns candidates : list pystr)
  : column_result :=
  match first_exact columns candidates with
  | Some c => Column c
  | None =>
      match first_lower (index_by str_lower columns) candidates with
      | Some col => Column col
      | None =>
          match first_contained (index_by normalize_key columns) candidates with
          | Some orig => Column orig
          | None =>
              match first_keyword columns candidates with
              | Some col => Column col
              | None => Ninguna_columna candidates
              end
          end
      end
  end.

(** [_sanitize_col_name]: blanks, slashes and backslashes, by runs,
    become one underscore; round and square brackets and commas go. *)
Definition is_separator (c : codepoint) : bool :=
  isspace c || bool_decide (c = 47) || bool_decide (c = 92).

Definition starts_separator (s : pystr) : bool :=
  match s with
  | [] => false
  | c :: _ => is_separator c
  end.

Fixpoint separators_to_underscore (s : pystr) : pystr :=
  match s with
  | [] => []
  | c :: s' =>
      if is_separator c then
        if starts_separator s' then separators_to_underscore s'
        else 95 :: separators_to_underscore s'
      else c :: separators_to_underscore s'
  end.

Definition _sanitize_col_name (name : pystr) : pystr :=
  let name := strip name in
  let name := separators_to_underscore name in
  filter (λ c, c ∉ py "()[],") name.

(** The naming of an extra column in [_normalizar_dataframe]: the
    sanitised name, then with the suffixes _1, _2, ... until the name is
    not a column of the normalised frame. [fuel] bounds the number of
    turns of the [while] loop. *)
Definition with_suffix (base_name : pystr) (suffix : nat) : pystr :=
  base_name ++ [95] ++ py (pretty suffix).

Fixpoint free_name (fuel : nat) (base_name : pystr) (suffix : nat)
    (sanitized : pystr) (columns : list pystr) : option pystr :=
  if bool_decide (sanitized ∈ columns) then
    match fuel with
    | O => None
    | S fuel' =>
        free_name fuel' base_name (S suffix) (with_suffix base_name suffix) columns
    end
  else Some sanitized.

(** The loop over the columns of the raw frame: [mapped_cols] are the
    four columns already used ([None] where none was found), [norm] the
    column names of the normalised frame so far. *)
Fixpoint extra_columns (fuel : nat) (mapped_cols : list (option pystr))
    (columns norm : list pystr) : option (list pystr) :=
  match columns with
  | [] => Some norm
  | col :: rest =>
      if bool_decide (Some col ∈ mapped_cols) then
        extra_columns fuel mapped_cols rest norm
      else
        let base_name := _sanitize_col_name col in
        sanitized ← free_name fuel base_name 1 base_name norm;
        extra_columns fuel mapped_cols rest (norm ++ [sanitized])
  end.

(** The columns every normalised frame starts with. *)
Definition standard_columns : list pystr :=
  [py "nombre"; py "municipio"; py "tipo"; py "superficie_ha"; py "categoria"].

End Columns.

(** ** A concrete runtime

    An excerpt of the runtime, used to run the definitions on concrete
    inputs. The character tables are those of the Unicode character
    database on Basic Latin, on the accented letters of Spanish, on
    the combining marks they decompose to and on U+2122 (trade mark
    sign); every other character is treated as a caseless symbol
    without decomposition. Whitespace is the full list of CPython. *)

Module Excerpt.

Definition in_range (lo hi c : N) : bool := (lo <=? c) && (c <=? hi).

(** Upper-case letters of the excerpt are 32 below their lower case. *)
Definition is_upper (c : codepoint) : bool :=
  in_range 65 90 c || bool_decide (c ∈ [193; 201; 205; 209; 211; 218; 220]).

Definition lower_char (c : codepoint) : codepoint :=
  if is_upper c then c + 32 else c.

(** Compatibility decomposition of one character. *)
Definition decompose (c : codepoint) : pystr :=
  match c with
  | 193 => [65; 769]  | 225 => [97; 769]
  | 201 => [69; 769]  | 233 => [101; 769]
  | 205 => [73; 769]  | 237 => [105; 769]
  | 211 => [79; 769]  | 243 => [111; 769]
  | 218 => [85; 769]  | 250 => [117; 769]
  | 209 => [78; 771]  | 241 => [110; 771]
  | 220 => [85; 776]  | 252 => [117; 776]
  | 8482 => [84; 77]
  | _ => [c]
  end.

Definition combining_class (c : codepoint) : N :=
  if bool_decide (c ∈ [769; 771; 776]) then 230 else 0.

Definition alnum (c : codepoint) : bool :=
  in_range 48 57 c || in_range 65 90 c || in_range 97 122 c ||
  bool_decide (c ∈ [193; 201; 205; 209; 211; 218; 220;
                    225; 233; 237; 241; 243; 250; 252]).

Definition whitespace (c : codepoint) : bool :=
  in_range 9 13 c || in_range 28 32 c ||
  bool_decide (c ∈ [133; 160; 5760; 8232; 8233; 8239; 8287; 12288]) ||
  in_range 8192 8202 c.

(** JSON values that are not strings, as far as the excerpt goes. *)
Inductive json_other :=
  | JNull
  | JBool (b : bool).

Definition json_truthy (o : json_other) : bool :=
  match o with
  | JNull => false
  | JBool b => b
  end.

Definition json_str (o : json_other) : pystr :=
  match o with
  | JNull => py "None"
  | JBool true => py "True"
  | JBool false => py "False"
  end.

(** [difflib.get_close_matches] on the inputs used below: against
    candidates drawn from the names listed here, a word has a ratio
    above both cutoffs (0.6 and 0.75) with the name paired with it and
    with no other; ratio of "otamendy" and "otamendi": 2*7/16. *)
Definition close_pairs : list (list N * list N) :=
  [(py "otamendy", py "otamendi")].

Definition close_matches (word : pystr) (possibilities : list pystr)
    (n : nat) (cutoff : Q) : list pystr :=
  take n (filter (λ x, (word, x) ∈ close_pairs) possibilities).

Definition runtime : Runtime := {|
  str_lower := fmap lower_char;
  normalize_NFKD s := s ≫= decompose;
  combining := combining_class;
  isalnum := alnum;
  isspace := whitespace;
  other := json_other;
  truthy := json_truthy;
  str_of := json_str;
  get_close_matches := close_matches;
|}.

#[local] Existing Instance runtime.

(** Samborombón, Otamendi, Otamendy. *)
Definition Samborombon_acute : pystr := py "Samboromb" ++ [243] ++ py "n".

Definition named (name : pystr) (fuente : pystr) : gmap (list N) value :=
  <[py "Fuente" := VStr fuente]> {[ py "nombre" := VStr name ]}.

(** Two spellings of one name. *)
Definition table_padres : list (gmap (list N) value) :=
  [named (py "Laguna de los Padres") (py "a");
   named (py "laguna de los padres") (py "b")].

(** A table where two records share a normalised name. *)
Definition table_otamendi : list (gmap (list N) value) :=
  [named (py "Laguna") (py "a");
   named (py "Otamendi") (py "b");
   named (py "OTAMENDI") (py "c")].

(** A table where a record is named by punctuation only. *)
Definition table_punctuation : list (gmap (list N) value) :=
  [named (py "Laguna") (py "a");
   named (py "!!") (py "b")].

(** One entry of the enrichment table, and four records: named as the
    key, as the key in capitals, as a misspelling of it, and otherwise. *)
Definition mapping_otamendi : list (list N * list (list N * list N)) :=
  [(py "Otamendi", [(py "Costo_de_ingreso", py "Gratuito");
                    (py "Fuente", py "La Nacion")])].

Definition records_four : list (gmap (list N) value) :=
  [named (py "Otamendi") (py "a");
   named (py "OTAMENDI") (py "b");
   named (py "Otamendy") (py "c");
   named (py "Laguna") (py "d")].

(** A small dialogue: a menu [A] with one option leading to the end
    node [B]; a node [C] of an unknown type pointing to [B]; a node [D]
    without type or successor. *)
Definition option_1 : menu_option :=
  {| opt_id := Some (py "1"); opt_label := Some (py "uno");
     opt_next_node_id := Some (py "B") |}.

Definition node_A : node :=
  {| node_id := Some (py "A"); node_type := Some (py "menu");
     message := Some (py "hola"); options := Some [option_1];
     next_node_id := None |}.

Definition node_B : node :=
  {| node_id := Some (py "B"); node_type := Some (py "end");
     message := Some (py "chau"); options := None; next_node_id := None |}.

Definition node_C : node :=
  {| node_id := Some (py "C"); node_type := Some (py "info");
     message := None; options := None; next_node_id := Some (py "B") |}.

Definition node_D : node :=
  {| node_id := Some (py "D"); node_type := None;
     message := None; options := None; next_node_id := None |}.

Definition index_ABCD : gmap (list N) node :=
  <[py "A" := node_A]> (<[py "B" := node_B]> (<[py "C" := node_C]>
    {[ py "D" := node_D ]})).

(** A definition whose start node is not among its nodes. *)
Definition bot_without_start : bot_definition :=
  {| def_nodes := Some [node_A; node_B]; def_start_node_id := None |}.

(** Two descriptors with the id [A]. *)
Definition node_A_again : node :=
  {| node_id := Some (py "A"); node_type := Some (py "end");
     message := Some (py "otra vez"); options := None; next_node_id := None |}.

Definition bot_twice_A : bot_definition :=
  {| def_nodes := Some [node_A; node_B; node_A_again];
     def_start_node_id := Some (py "A") |}.

(** An input node [E] leading to [B], in the graph of [A] to [D]; a
    definition with the nodes [A], [B] and [E]. *)
Definition node_E : node :=
  {| node_id := Some (py "E"); node_type := Some (py "input");
     message := Some (py "nombre?"); options := None;
     next_node_id := Some (py "B") |}.

Definition index_ABCDE : gmap (list N) node :=
  <[py "E" := node_E]> index_ABCD.

Definition bot_ABE : bot_definition :=
  {| def_nodes := Some [node_A; node_B; node_E];
     def_start_node_id := Some (py "A") |}.

(** Two keys of the enrichment table with one normalised form. *)
Definition mapping_two_spellings : list (list N * list (list N * list N)) :=
  [(py "Otamendi", [(py "Fuente", py "La Nacion")]);
   (py "OTAMENDI", [(py "Fuente", py "Otra")])].

(** Column names of raw frames. *)
Definition columns_padded : list (list N) :=
  [py "nombre "; py "Municipio"].

Definition columns_two_cases : list (list N) :=
  [py "NOMBRE"; py "Nombre"].

Definition columns_tipo : list (list N) :=
  [py "Tipo de reserva"; py "Nombre"].

(** A column named by the letter Ñ alone. *)
Definition columns_enie : list (list N) := [[209]].

Definition columns_raw : list (list N) :=
  [py "Nombre"; py "Municipio"; py "tipo"; py "Superficie (Ha) / total"].

End Excerpt.

(** ** Vocabulary of the statements *)

Section Vocabulary.
Context `{RT : Runtime}.

(** A token: non-empty and free of whitespace. *)
Definition token (w : pystr) : Prop :=
  w ≠ [] ∧ Forall (λ c, isspace c = false) w.

(** [a] occurs in [b]. *)
Definition substring (a b : pystr) : Prop := ∃ pre post, b = pre ++ a ++ post.

(** [r] is the first record of the table, in table order, whose
    normalised name is [m]. *)
Definition first_in_table (table : list record) (m : pystr) (r : record) : Prop :=
  ∃ pre post, table = pre ++ r :: post
              ∧ nombre_norm r = m
              ∧ Forall (λ x, nombre_norm x ≠ m) pre.

(** The record named [name] matches the entry [mk] of [mapping], in
    one of the three tiers: its name is a key; or its normalised name
    is that of a key; or the closest normalised key, at cutoff 0.75. *)
Definition tier_hit (mapping : list (list N * fields)) (name mk : pystr) : Prop :=
  let norm_to_key := build_norm_to_key mapping in
  let nname := normalize_name (VStr name) in
  (is_Some (dict_get name mapping) ∧ mk = name)
  ∨ (dict_get name mapping = None ∧ nname ≠ []
     ∧ dict_get nname norm_to_key = Some mk)
  ∨ (dict_get name mapping = None ∧ nname ≠ []
     ∧ dict_get nname norm_to_key = None
     ∧ ∃ m rest,
         get_close_matches nname norm_to_key.*1 1 (75 # 100) = m :: rest
         ∧ dict_get m norm_to_key = Some mk).

(** The record matches in no tier. *)
Definition no_hit (mapping : list (list N * fields)) (rec : record) : Prop :=
  ∀ name mk, rec !! py "nombre" = Some (VStr name) → ¬ tier_hit mapping name mk.

(** [rec'] is [rec] with the fields [vals] set, and nothing else touched. *)
Definition overlaid (vals : fields) (rec rec' : record) : Prop :=
  ∀ k, (k ∉ vals.*1 → rec' !! k = rec !! k)
       ∧ (k ∈ vals.*1 → ∃ v, (k, v) ∈ vals ∧ rec' !! k = Some (VStr v)).

(** The matcher only proposes candidates. *)
Definition proposes_candidates : Prop :=
  ∀ word possibilities n cutoff m,
    m ∈ get_close_matches word possibilities n cutoff → m ∈ possibilities.

(** What one iteration does to a record and to the report. *)
Inductive iteration (mapping : list (list N * fields)) (rec : record)
    (st : report) : record → report → Prop :=
  | iteration_kept :
      no_hit mapping rec →
      iteration mapping rec st rec (add_not_found (rec !! py "nombre") st)
  | iteration_enriched name mk vals st' :
      rec !! py "nombre" = Some (VStr name) →
      tier_hit mapping name mk →
      dict_get mk mapping = Some vals →
      updated st' = S (updated st) →
      not_found st' = not_found st →
      iteration mapping rec st (fill vals rec) st'.

(** The whole loop: input records, output records, names reported as
    not found, number of records updated. *)
Inductive unified (mapping : list (list N * fields))
  : list record → list record → list (option value) → nat → Prop :=
  | unified_nil : unified mapping [] [] [] 0
  | unified_kept rec rest out nf u :
      no_hit mapping rec →
      unified mapping rest out nf u →
      unified mapping (rec :: rest) (rec :: out) (rec !! py "nombre" :: nf) u
  | unified_enriched rec rest out nf u name mk vals :
      rec !! py "nombre" = Some (VStr name) →
      tier_hit mapping name mk →
      dict_get mk mapping = Some vals →
      unified mapping rest out nf u →
      unified mapping (rec :: rest) (fill vals rec :: out) nf (S u).

(** No candidate and column have keys of which one contains the other. *)
Definition no_overlap (columns candidates : list pystr) : Prop :=
  ∀ c col, c ∈ candidates → col ∈ columns →
    overlaps (normalize_key c) (normalize_key col) = false.

End Vocabulary.

(** * Properties *)

(** ** Splitting and joining *)

Section StringFacts.
Context `{RT : Runtime}.

Lemma lstrip_word (s : pystr) : starts_space s = false → lstrip s = s.
Proof. destruct s as [|c s]; simpl; [done|]. by intros ->. Qed.

Lemma strip_word (s : pystr) :
  starts_space s = false → starts_space (reverse s) = false → strip s = s.
Proof.
  intros Hl Hr. unfold strip.
  by rewrite (lstrip_word s Hl), (lstrip_word _ Hr), reverse_involutive.
Qed.

Lemma split_tokens (s : pystr) : Forall token (split s).
Proof.
  induction s as [|c s IH]; simpl; [constructor|].
  destruct (isspace c) eqn:Hc; [done|].
  destruct (starts_word s).
  - destruct (split s) as [|w ws].
    { constructor; [|constructor]. split; [done|]. by constructor. }
    inversion_clear IH as [|? ? [Hne Hw] Hws].
    constructor; [|done]. split; [done|by constructor].
  - constructor; [|done]. split; [done|]. by constructor.
Qed.

Lemma split_chars (s w : pystr) (c : codepoint) :
  w ∈ split s → c ∈ w → c ∈ s.
Proof.
  revert w. induction s as [|a s IH]; simpl; intros w Hw Hc.
  - by apply elem_of_nil in Hw.
  - destruct (isspace a); [right; eauto|].
    destruct (starts_word s).
    + destruct (split s) as [|w' ws].
      * apply list_elem_of_singleton in Hw as ->. apply list_elem_of_singleton in Hc as ->. left.
      * apply elem_of_cons in Hw as [->|Hw].
        -- apply elem_of_cons in Hc as [->|Hc]; [left|right].
           apply (IH w'); [left|done].
        -- right. apply (IH w); [by right|done].
    + apply elem_of_cons in Hw as [->|Hw].
      * apply list_elem_of_singleton in Hc as ->. left.
      * right. eauto.
Qed.

(** A token is split off whole when what follows does not continue it. *)
Lemma split_token_app (w rest : pystr) :
  token w → starts_word rest = false → split (w ++ rest) = w :: split rest.
Proof.
  intros [Hne Hw] Hrest. induction w as [|c w IH]; [done|].
  inversion_clear Hw as [|? ? Hc Hw']. simpl. rewrite Hc.
  destruct w as [|c' w].
  - simpl. by rewrite Hrest.
  - assert (starts_word ((c' :: w) ++ rest) = true) as ->.
    { simpl. inversion_clear Hw' as [|? ? Hc' _]. by rewrite Hc'. }
    by rewrite IH.
Qed.

Lemma split_join (sep : codepoint) (ws : list pystr) :
  isspace sep = true → Forall token ws → split (join sep ws) = ws.
Proof.
  intros Hsep. induction 1 as [|w ws Hw Hws IH]; [done|].
  destruct ws as [|w' ws].
  - simpl. rewrite <-(app_nil_r w) at 1. by rewrite split_token_app.
  - change (join sep (w :: w' :: ws)) with (w ++ sep :: join sep (w' :: ws)).
    rewrite split_token_app; [|done|by simpl; rewrite Hsep].
    cbn [split]. by rewrite Hsep, IH.
Qed.

Lemma join_chars (sep c : codepoint) (ws : list pystr) :
  c ∈ join sep ws → c = sep ∨ ∃ w, w ∈ ws ∧ c ∈ w.
Proof.
  induction ws as [|w ws IH]; [by intros ?%elem_of_nil|].
  destruct ws as [|w' ws].
  - simpl. intros Hc. right. exists w. split; [left|done].
  - change (join sep (w :: w' :: ws)) with (w ++ sep :: join sep (w' :: ws)).
    rewrite elem_of_app, elem_of_cons. intros [Hc|[->|Hc]]; [|by left|].
    + right. exists w. split; [left|done].
    + destruct (IH Hc) as [->|(x & Hx & Hcx)]; [by left|].
      right. exists x. split; [by right|done].
Qed.

Lemma join_starts_word (sep : codepoint) (ws : list pystr) :
  Forall token ws → starts_space (join sep ws) = false.
Proof.
  destruct 1 as [|w ws [Hne Hw] Hws]; [done|].
  destruct w as [|c w]; [done|]. inversion_clear Hw as [|? ? Hc _].
  destruct ws; simpl; by rewrite Hc.
Qed.

Lemma join_ends_word (sep : codepoint) (ws : list pystr) :
  Forall token ws → starts_space (reverse (join sep ws)) = false.
Proof.
  assert (∀ w, token w → starts_space (reverse w) = false) as Htok.
  { intros w [Hne Hw]. destruct (reverse w) as [|c r] eqn:Hr; [done|].
    simpl. eapply Forall_forall in Hw; [exact Hw|].
    apply elem_of_reverse. rewrite Hr. left. }
  assert (∀ a b : pystr, starts_space (reverse b) = false → b ≠ [] →
            starts_space (reverse (a ++ b)) = false) as Happ.
  { intros a b Hb Hne. rewrite reverse_app.
    destruct (reverse b) as [|c r] eqn:Hr; [|done].
    destruct Hne. by rewrite <-(reverse_involutive b), Hr. }
  induction 1 as [|w ws Hw Hws IH]; [done|].
  destruct ws as [|w' ws]; [by apply Htok|].
  change (join sep (w :: w' :: ws)) with (w ++ [sep] ++ join sep (w' :: ws)).
  rewrite !app_assoc. apply Happ; [done|].
  inversion_clear Hws as [|? ? [Hne' _] _].
  destruct w'; [done|]. by destruct ws.
Qed.

End StringFacts.

(** ** [_normalize_name] *)

Section Normalize.
Context `{RT : Runtime}.

Lemma filter_all {A} (P : A → Prop) `{∀ x, Decision (P x)} (l : list A) :
  Forall P l → filter P l = l.
Proof.
  induction 1 as [|x l Hx Hl IH]; [done|].
  by rewrite filter_cons_True, IH.
Qed.

Lemma fmap_fixed {A} (f : A → A) (l : list A) :
  Forall (λ x, f x = x) l → f <$> l = l.
Proof. induction 1 as [|x l Hx Hl IH]; [done|]. by rewrite fmap_cons, Hx, IH. Qed.

(** Every character of a normalised text is the separator or a
    character the two character passes let through. *)
Lemma normalize_text_chars (s : pystr) (c : codepoint) :
  c ∈ normalize_text s → c = SP ∨ (combining c = 0 ∧ keep_or_space c = c).
Proof.
  unfold normalize_text. intros [->|(w & Hw & Hc)]%join_chars; [by left|].
  pose proof (split_chars _ _ _ Hw Hc) as (c' & Hcc' & Hc')%list_elem_of_fmap.
  apply list_elem_of_filter in Hc' as [Hcomb _].
  revert Hcc'. unfold keep_or_space at 1.
  destruct (isalnum c' || isspace c' || bool_decide (c' ∈ py "-_")) eqn:Hk;
    intros ->; [right|by left].
  split; [done|]. unfold keep_or_space. by rewrite Hk.
Qed.

(** A normalised text that lower-casing and decomposition leave alone
    is left alone by the whole normalisation. *)
Lemma normalize_text_fixed (s : pystr) :
  isspace SP = true → combining SP = 0 →
  str_lower (normalize_text s) = normalize_text s →
  normalize_NFKD (normalize_text s) = normalize_text s →
  normalize_text (normalize_text s) = normalize_text s.
Proof.
  intros Hsp Hcomb Hlow Hnfkd.
  pose proof (normalize_text_chars s) as Hchars.
  assert (Forall token (split (keep_or_space <$>
            filter (λ ch, combining ch = 0)
              (normalize_NFKD (str_lower (strip s)))))) as Htok
    by apply split_tokens.
  set (y := normalize_text s) in *.
  assert (strip y = y) as Hstrip.
  { apply strip_word; [by apply join_starts_word|by apply join_ends_word]. }
  unfold normalize_text at 1. rewrite Hstrip, Hlow, Hnfkd.
  rewrite filter_all; last first.
  { apply Forall_forall. intros c [->|[? _]]%Hchars; done. }
  rewrite fmap_fixed; last first.
  { apply Forall_forall. intros c [->|[_ ?]]%Hchars; [|done].
    unfold keep_or_space. by rewrite Hsp, orb_true_r. }
  unfold y, normalize_text. by rewrite split_join.
Qed.

End Normalize.

(** [_normalize_name] is total and returns the empty string for an
    absent or empty input; a second pass returns its argument on every
    normalised name that lower-casing and compatibility decomposition
    leave unchanged. (Space is whitespace and is no combining mark.) *)
Theorem normalize_name_total_and_fixed `{RT : Runtime} :
  isspace SP = true → combining SP = 0 →
  _normalize_name None = []
  ∧ _normalize_name (Some (VStr [])) = []
  ∧ ∀ x : option value,
      str_lower (_normalize_name x) = _normalize_name x →
      normalize_NFKD (_normalize_name x) = _normalize_name x →
      _normalize_name (Some (VStr (_normalize_name x))) = _normalize_name x.
Proof.
  intros Hsp Hcomb. split; [done|]. split; [done|].
  intros x Hlow Hnfkd.
  destruct (decide (_normalize_name x = [])) as [->|Hne]; [done|].
  unfold _normalize_name at 1. simpl. rewrite bool_decide_eq_false_2 by done.
  unfold _normalize_name in *. destruct x as [v|]; [|done].
  destruct (falsy (Some v)); [done|].
  by apply normalize_text_fixed.
Qed.

Section NormalizeExamples.
Local Existing Instance Excerpt.runtime.

(** Accents, case, punctuation and runs of blanks are folded. *)
Example normalize_Samborombon :
  _normalize_name (Some (VStr Excerpt.Samborombon_acute)) = py "samborombon"
  ∧ _normalize_name (Some (VStr (py "Samborombon"))) = py "samborombon"
  ∧ _normalize_name (Some (VStr (py "  Bah!a (de)  Sambo-1 "))) = py "bah a de sambo-1"
  ∧ _normalize_name (Some (VOther Excerpt.JNull)) = [].
Proof. vm_compute. done. Qed.

Lemma normalize_name_total_and_fixed_witness :
  let y := _normalize_name (Some (VStr Excerpt.Samborombon_acute)) in
  y = py "samborombon"
  ∧ isspace SP = true ∧ combining SP = 0
  ∧ str_lower y = y ∧ normalize_NFKD y = y
  ∧ _normalize_name (Some (VStr y)) = y.
Proof.
  do 5 (split; [vm_compute; reflexivity|]).
  apply (normalize_name_total_and_fixed (RT := Excerpt.runtime) eq_refl eq_refl);
    vm_compute; reflexivity.
Defined.

(** C5. [_normalize_name] is not idempotent. It lower-cases before it
    decomposes: the trade mark sign U+2122 has no lower case and
    decomposes to the capital letters TM, so the first pass returns a
    name in capitals, which only a second pass lower-cases. *)
Lemma normalize_name_not_idempotent :
  _normalize_name (Some (VStr [8482])) = py "TM"
  ∧ _normalize_name (Some (VStr (_normalize_name (Some (VStr [8482]))))) = py "tm"
  ∧ _normalize_name (Some (VStr (_normalize_name (Some (VStr [8482])))))
    ≠ _normalize_name (Some (VStr [8482])).
Proof. vm_compute. split; [done|]. split; [done|]. discriminate. Qed.

(** [normalize_name] of the enrichment script lower-cases last, and
    returns small letters for the same sign, at the first pass and at
    the second. *)
Example normalize_name_lowers_last :
  normalize_name (VStr [8482]) = py "tm"
  ∧ normalize_name (VStr (normalize_name (VStr [8482])))
    = normalize_name (VStr [8482]).
Proof. vm_compute. done. Qed.

End NormalizeExamples.

(** ** Substrings *)

Lemma startswith_spec (s p : pystr) :
  startswith s p = true ↔ ∃ post, s = p ++ post.
Proof.
  revert s. induction p as [|a p IH]; intros s.
  - split; [by exists s|by destruct s].
  - destruct s as [|b s]; simpl.
    + split; [done|]. by intros [? ?].
    + rewrite andb_true_iff, bool_decide_eq_true, IH. split.
      * intros [-> [post ->]]. by exists post.
      * intros [post [= -> ->]]. split; [done|by exists post].
Qed.

Lemma str_in_spec (a b : pystr) : str_in a b = true ↔ substring a b.
Proof.
  unfold substring. induction b as [|c b IH]; cbn [str_in].
  - rewrite orb_false_r, startswith_spec. split.
    + intros [post Hp]. by exists [], post.
    + intros (pre & post & Hp). symmetry in Hp.
      apply app_eq_nil in Hp as [-> [-> ->]%app_eq_nil]. by exists [].
  - rewrite orb_true_iff, startswith_spec, IH. split.
    + intros [[post Hp]|(pre & post & ->)]; [by exists [], post|].
      by exists (c :: pre), post.
    + intros ([|c' pre] & post & Hp).
      * left. by exists post.
      * injection Hp as -> ->. right. by exists pre, post.
Qed.

#[export] Instance substring_dec (a b : pystr) : Decision (substring a b).
Proof.
  destruct (str_in a b) eqn:Hin.
  - left. by apply str_in_spec.
  - right. intros Hs%str_in_spec. congruence.
Defined.

Lemma empty_substring (b : pystr) : substring [] b.
Proof. by exists [], b. Qed.

(** ** [api_reservas] *)

Section SearchFacts.
Context `{RT : Runtime}.

Lemma filter_nonempty {A} (P : A → Prop) `{∀ x, Decision (P x)} (l : list A) :
  filter P l ≠ [] ↔ ∃ x, x ∈ l ∧ P x.
Proof.
  split.
  - destruct (filter P l) as [|x f] eqn:Hf; [done|]. intros _.
    assert (x ∈ filter P l) as [? ?]%list_elem_of_filter by (rewrite Hf; left).
    by exists x.
  - intros (x & Hx & HP) Hf. by eapply filter_nil_not_elem_of.
Qed.

Lemma search_blank (table : list record) (q : option pystr) :
  strip (default [] q) = [] → api_reservas table q = [].
Proof. intros Hq. unfold api_reservas. by rewrite Hq. Qed.

Lemma search_exact (table : list record) (q : option pystr) :
  let nq := _normalize_name (Some (VStr (strip (default [] q)))) in
  strip (default [] q) ≠ [] →
  (∃ r, r ∈ table ∧ nombre_norm r = nq) →
  api_reservas table q = take 5 (filter (λ r, nombre_norm r = nq) table).
Proof.
  intros nq Hq Hex. unfold api_reservas.
  rewrite bool_decide_eq_false_2 by done. fold nq.
  apply (filter_nonempty (λ r, nombre_norm r = nq)) in Hex.
  by rewrite (bool_decide_eq_false_2 _ Hex).
Qed.

(** Past the exact tier the substring test decides. *)
Lemma search_past_exact (table : list record) (q : option pystr) :
  let nq := _normalize_name (Some (VStr (strip (default [] q)))) in
  let contains := filter (λ r, substring nq (nombre_norm r)) table in
  strip (default [] q) ≠ [] →
  ¬ (∃ r, r ∈ table ∧ nombre_norm r = nq) →
  api_reservas table q
  = if bool_decide (contains = []) then
      take 5 (resolve_matches
                (get_close_matches nq (nombre_norm <$> table) 5 (6 # 10)) table)
    else take 5 contains.
Proof.
  intros nq contains Hq Hex. unfold api_reservas.
  rewrite bool_decide_eq_false_2 by done. fold nq.
  rewrite bool_decide_eq_true_2; last first.
  { destruct (filter (λ r, nombre_norm r = nq) table) eqn:Hf; [done|].
    destruct Hex. apply (filter_nonempty (λ r, nombre_norm r = nq)).
    by rewrite Hf. }
  cbn [negb].
  rewrite (list_filter_iff _ (λ r, substring nq (nombre_norm r))); last first.
  { intros r. by rewrite Is_true_true, str_in_spec. }
  fold contains. by destruct (bool_decide (contains = [])).
Qed.

Lemma search_substring (table : list record) (q : option pystr) :
  let nq := _normalize_name (Some (VStr (strip (default [] q)))) in
  strip (default [] q) ≠ [] →
  ¬ (∃ r, r ∈ table ∧ nombre_norm r = nq) →
  (∃ r, r ∈ table ∧ substring nq (nombre_norm r)) →
  api_reservas table q
  = take 5 (filter (λ r, substring nq (nombre_norm r)) table).
Proof.
  intros nq Hq Hex Hsub. rewrite search_past_exact by done. fold nq.
  apply (filter_nonempty (λ r, substring nq (nombre_norm r))) in Hsub.
  by rewrite (bool_decide_eq_false_2 _ Hsub).
Qed.

Lemma search_fuzzy (table : list record) (q : option pystr) :
  let nq := _normalize_name (Some (VStr (strip (default [] q)))) in
  strip (default [] q) ≠ [] →
  ¬ (∃ r, r ∈ table ∧ nombre_norm r = nq) →
  ¬ (∃ r, r ∈ table ∧ substring nq (nombre_norm r)) →
  api_reservas table q
  = take 5 (resolve_matches
              (get_close_matches nq (nombre_norm <$> table) 5 (6 # 10)) table).
Proof.
  intros nq Hq Hex Hsub. rewrite search_past_exact by done. fold nq.
  rewrite bool_decide_eq_true_2; [done|].
  destruct (filter (λ r, substring nq (nombre_norm r)) table) eqn:Hf; [done|].
  destruct Hsub. apply (filter_nonempty (λ r, substring nq (nombre_norm r))).
  by rewrite Hf.
Qed.

Lemma first_named_Some (table : list record) (m : pystr) (r : record) :
  first_named m table = Some r → first_in_table table m r.
Proof.
  induction table as [|x table IH]; simpl; [done|].
  case_bool_decide as Hx.
  - intros [= ->]. by exists [], table.
  - intros (pre & post & -> & Hr & Hpre)%IH.
    exists (x :: pre), post. split; [done|]. split; [done|]. by constructor.
Qed.

Lemma first_named_None (table : list record) (m : pystr) :
  first_named m table = None → m ∉ nombre_norm <$> table.
Proof.
  induction table as [|x table IH]; simpl; [intros _ ?%elem_of_nil; done|].
  case_bool_decide as Hx; [done|].
  intros Hn%IH [?|?]%elem_of_cons; done.
Qed.

Lemma resolve_matches_first (table : list record) (matches : list pystr) :
  (∀ m, m ∈ matches → m ∈ nombre_norm <$> table) →
  Forall2 (first_in_table table) matches (resolve_matches matches table).
Proof.
  induction matches as [|m ms IH]; intros Hin; simpl; [constructor|].
  destruct (first_named m table) as [r|] eqn:Hr.
  - constructor; [by apply first_named_Some|].
    apply IH. intros ? ?. apply Hin. by right.
  - apply first_named_None in Hr. destruct Hr. apply Hin. left.
Qed.

(** C4. Whatever the table and the query, and whichever tier answers,
    [api_reservas] returns at most 5 records. *)
Theorem search_at_most_5 (table : list record) (q : option pystr) :
  (length (api_reservas table q) ≤ 5)%nat.
Proof.
  unfold api_reservas.
  repeat (case_match; simpl; try lia); rewrite length_take; lia.
Qed.

Lemma none_in_table {A} (P : A → Prop) (l : list A) :
  Forall (λ x, ¬ P x) l → ¬ (∃ x, x ∈ l ∧ P x).
Proof. intros Hl (x & Hx & HP). by eapply Forall_forall in Hl. Qed.

Lemma Forall2_elem_of_r {A B} (P : A → B → Prop) (l : list A) (k : list B) (y : B) :
  Forall2 P l k → y ∈ k → ∃ x, x ∈ l ∧ P x y.
Proof.
  induction 1 as [|a b l k Hab Hlk IH]; [by intros ?%elem_of_nil|].
  intros [->|Hy]%elem_of_cons.
  - exists a. split; [left|done].
  - destruct (IH Hy) as (x & Hx & HP). exists x. split; [by right|done].
Qed.

End SearchFacts.

(** C2. [api_reservas] answers from the first tier that has a hit: a
    query that is blank after trimming gives the empty list; else, if
    some record's normalised name equals the normalised query, the first
    five such records in table order; else, if some record's normalised
    name contains the normalised query, the first five such records in
    table order; else what the close matches resolve to, which is the
    empty list when there is no close match. *)
Theorem search_tiers `{RT : Runtime} (table : list record) (q : option pystr) :
  let q' := strip (default [] q) in
  let nq := _normalize_name (Some (VStr q')) in
  let matches := get_close_matches nq (nombre_norm <$> table) 5 (6 # 10) in
  (q' = [] → api_reservas table q = [])
  ∧ (q' ≠ [] →
     (∃ r, r ∈ table ∧ nombre_norm r = nq) →
     api_reservas table q = take 5 (filter (λ r, nombre_norm r = nq) table))
  ∧ (q' ≠ [] →
     ¬ (∃ r, r ∈ table ∧ nombre_norm r = nq) →
     (∃ r, r ∈ table ∧ substring nq (nombre_norm r)) →
     api_reservas table q
     = take 5 (filter (λ r, substring nq (nombre_norm r)) table))
  ∧ (q' ≠ [] →
     ¬ (∃ r, r ∈ table ∧ nombre_norm r = nq) →
     ¬ (∃ r, r ∈ table ∧ substring nq (nombre_norm r)) →
     api_reservas table q = take 5 (resolve_matches matches table)
     ∧ (matches = [] → api_reservas table q = [])).
Proof.
  intros q' nq matches. split; [apply search_blank|].
  split; [apply search_exact|]. split; [apply search_substring|].
  intros Hq Hex Hsub.
  pose proof (search_fuzzy table q Hq Hex Hsub) as Hf. split; [done|].
  intros Hm. rewrite Hf. fold q' nq matches. by rewrite Hm.
Qed.

(** C3. In the fuzzy tier the matcher is run on the normalised query
    against the normalised names of the table, in table order, with at
    most 5 results and cutoff 0.6; the answer is the first five of the
    records the matches resolve to, each match resolving to the first
    record of the table with that normalised name, so that no record of
    the answer has an earlier record of the same normalised name. *)
Theorem fuzzy_tier_first_record `{RT : Runtime}
    (table : list record) (q : option pystr) :
  let q' := strip (default [] q) in
  let nq := _normalize_name (Some (VStr q')) in
  let matches := get_close_matches nq (nombre_norm <$> table) 5 (6 # 10) in
  q' ≠ [] →
  ¬ (∃ r, r ∈ table ∧ nombre_norm r = nq) →
  ¬ (∃ r, r ∈ table ∧ substring nq (nombre_norm r)) →
  (∀ m, m ∈ matches → m ∈ nombre_norm <$> table) →
  ∃ rs, Forall2 (first_in_table table) matches rs
        ∧ api_reservas table q = take 5 rs
        ∧ ∀ r, r ∈ api_reservas table q →
            ∃ pre post, table = pre ++ r :: post
                        ∧ Forall (λ x, nombre_norm x ≠ nombre_norm r) pre.
Proof.
  intros q' nq matches Hq Hex Hsub Hcand.
  pose proof (resolve_matches_first table matches Hcand) as Hfirst.
  pose proof (search_fuzzy table q Hq Hex Hsub) as Hres.
  exists (resolve_matches matches table). split; [done|]. split; [done|].
  intros r Hr. rewrite Hres in Hr.
  apply elem_of_take in Hr as (i & Hr%list_elem_of_lookup_2 & _).
  destruct (Forall2_elem_of_r _ _ _ _ Hfirst Hr)
    as (m & _ & pre & post & Ht & Hm & Hpre).
  exists pre, post. by rewrite Hm.
Qed.

(** C10 (as amended). On a table that is not empty, a query that is
    not blank but normalises to the empty string is answered with
    records: the first five of those whose normalised name is empty, if
    there are any, and else the first five records of the table, every
    name containing the empty string. *)
Theorem search_empty_normal_form `{RT : Runtime}
    (table : list record) (q : option pystr) :
  let q' := strip (default [] q) in
  let nq := _normalize_name (Some (VStr q')) in
  table ≠ [] →
  q' ≠ [] →
  nq = [] →
  api_reservas table q ≠ []
  ∧ ((∃ r, r ∈ table ∧ nombre_norm r = nq) →
     api_reservas table q = take 5 (filter (λ r, nombre_norm r = nq) table))
  ∧ (¬ (∃ r, r ∈ table ∧ nombre_norm r = nq) →
     api_reservas table q = take 5 table).
Proof.
  intros q' nq Ht Hq Hnq.
  assert (∀ l : list record, l ≠ [] → take 5 l ≠ []) as Htake
    by (by intros [|? ?]).
  pose proof (search_exact table q Hq) as Hexact.
  pose proof (search_substring table q Hq) as Hall.
  cbv zeta in Hexact, Hall. fold q' nq in Hexact, Hall.
  rewrite (filter_all (λ r, substring nq (nombre_norm r))) in Hall; last first.
  { apply Forall_forall. intros r _. rewrite Hnq. apply empty_substring. }
  assert (∃ r, r ∈ table ∧ substring nq (nombre_norm r)) as Hany.
  { destruct table as [|r table]; [done|]. exists r. split; [left|].
    rewrite Hnq. apply empty_substring. }
  split; [|split; [exact Hexact|]; intros ?; by apply Hall].
  destruct (decide (filter (λ r, nombre_norm r = nq) table = [])) as [Hf|Hf].
  - rewrite Hall; [by apply Htake| |done].
    by intros Hex%(filter_nonempty (λ r, nombre_norm r = nq)).
  - rewrite Hexact; [by apply Htake|].
    by apply (filter_nonempty (λ r, nombre_norm r = nq)).
Qed.

Section SearchExamples.
Local Existing Instance Excerpt.runtime.

(** No record of a concrete table passes a test: by evaluation. *)
Local Ltac no_record :=
  lazymatch goal with
  | |- ¬ (∃ r, r ∈ ?l ∧ @?P r) =>
      apply (none_in_table P l); apply (bool_decide_unpack _); vm_compute; exact I
  end.

(** Both spellings of the name answer the query, in table order. *)
Lemma search_tiers_witness :
  let table := Excerpt.table_padres in
  let q := Some (py "Laguna de los Padres") in
  let nq := py "laguna de los padres" in
  strip (default [] q) ≠ []
  ∧ (∃ r, r ∈ table ∧ nombre_norm r = nq)
  ∧ api_reservas table q = take 5 (filter (λ r, nombre_norm r = nq) table)
  ∧ length (filter (λ r, nombre_norm r = nq) table) = 2%nat.
Proof.
  intros table q nq.
  assert (strip (default [] q) ≠ []) as Hq by (vm_compute; discriminate).
  assert (∃ r, r ∈ table ∧ nombre_norm r = nq) as Hex.
  { exists (Excerpt.named (py "Laguna de los Padres") (py "a")).
    split; [left|vm_compute; reflexivity]. }
  split; [done|]. split; [done|]. split; [|vm_compute; reflexivity].
  destruct (search_tiers table q) as (_ & Hexact & _).
  apply Hexact; [exact Hq|exact Hex].
Defined.

(** A misspelt query reaches the fuzzy tier; both records named
    Otamendi are candidates and each match resolves to the first. *)
Lemma fuzzy_tier_first_record_witness :
  let table := Excerpt.table_otamendi in
  let q := Some (py "Otamendy") in
  ∃ rs, Forall2 (first_in_table table)
          (get_close_matches (py "otamendy") (nombre_norm <$> table) 5 (6 # 10)) rs
        ∧ api_reservas table q = take 5 rs
        ∧ ∀ r, r ∈ api_reservas table q →
            ∃ pre post, table = pre ++ r :: post
                        ∧ Forall (λ x, nombre_norm x ≠ nombre_norm r) pre.
Proof.
  intros table q.
  apply (fuzzy_tier_first_record table q).
  - vm_compute; discriminate.
  - no_record.
  - no_record.
  - apply Forall_forall. apply (bool_decide_unpack _). vm_compute. exact I.
Defined.

(** A query of punctuation only is answered with the head of a table
    where every record has a name, and with the record named by
    punctuation where there is one. *)
Lemma search_empty_normal_form_witness :
  let q := Some (py "!!!") in
  let nq := _normalize_name (Some (VStr (strip (default [] q)))) in
  strip (default [] q) ≠ []
  ∧ nq = []
  ∧ api_reservas Excerpt.table_otamendi q ≠ []
  ∧ api_reservas Excerpt.table_otamendi q = take 5 Excerpt.table_otamendi
  ∧ api_reservas Excerpt.table_punctuation q ≠ []
  ∧ api_reservas Excerpt.table_punctuation q
    = take 5 (filter (λ r, nombre_norm r = nq) Excerpt.table_punctuation).
Proof.
  intros q nq.
  assert (strip (default [] q) ≠ []) as Hq by (vm_compute; discriminate).
  assert (nq = []) as Hnq by (vm_compute; reflexivity).
  destruct (search_empty_normal_form Excerpt.table_otamendi q)
    as (Hne & _ & Hall); [discriminate|exact Hq|exact Hnq|].
  destruct (search_empty_normal_form Excerpt.table_punctuation q)
    as (Hne' & Hexact & _); [discriminate|exact Hq|exact Hnq|].
  split; [exact Hq|]. split; [exact Hnq|]. split; [exact Hne|].
  split; [apply Hall; no_record|]. split; [exact Hne'|].
  apply Hexact. exists (Excerpt.named (py "!!") (py "b")).
  split; [right; left|vm_compute; reflexivity].
Defined.

(** C10 fails as stated: where a record is named by punctuation only,
    the exact tier answers the query with that record, the second of
    the table, and not with the first records of the table. *)
Lemma search_empty_normal_form_exact_tier :
  let table := Excerpt.table_punctuation in
  let q := Some (py "!!!") in
  table ≠ []
  ∧ strip (default [] q) ≠ []
  ∧ _normalize_name (Some (VStr (strip (default [] q)))) = []
  ∧ length (api_reservas table q) = 1%nat
  ∧ api_reservas table q !! 0%nat ≫= (.!! py "nombre") = Some (VStr (py "!!"))
  ∧ length (take 5 table) = 2%nat
  ∧ take 5 table !! 0%nat ≫= (.!! py "nombre") = Some (VStr (py "Laguna"))
  ∧ api_reservas table q ≠ take 5 table.
Proof.
  intros table q.
  split; [discriminate|]. split; [vm_compute; discriminate|].
  do 5 (split; [vm_compute; reflexivity|]).
  intros H. apply (f_equal length) in H. vm_compute in H. discriminate.
Defined.

End SearchExamples.

(** ** [resolve_next_node] *)

Lemma scan_options_first (oid : pystr) (pre post : list menu_option)
    (o : menu_option) :
  Forall (λ o', opt_id o' ≠ Some oid) pre →
  opt_id o = Some oid →
  scan_options oid (pre ++ o :: post) = opt_next_node_id o.
Proof.
  intros Hpre Ho. induction Hpre as [|o' pre Ho' Hpre IH]; simpl.
  - by rewrite bool_decide_eq_true_2.
  - by rewrite bool_decide_eq_false_2.
Qed.

Lemma scan_options_none (oid : pystr) (opts : list menu_option) :
  Forall (λ o, opt_id o ≠ Some oid) opts → scan_options oid opts = None.
Proof.
  induction 1 as [|o opts Ho Hopts IH]; simpl; [done|].
  by rewrite bool_decide_eq_false_2.
Qed.

(** C1. On a current node of type menu or response: an absent or empty
    [option_id] is an InputError; otherwise the options are scanned in
    order and the first whose id is [option_id] is selected, whatever
    follows it; the call is a NotFoundError when no option has that id,
    when the selected option has no or an empty [next_node_id], and
    when that id is not in the graph; otherwise the node of that id is
    returned. *)
Theorem resolve_menu (idx : gmap (list N) node) (current_node_id : pystr)
    (current : node) (option_id user_input : option pystr) :
  idx !! current_node_id = Some current →
  node_type current = Some (py "menu") ∨ node_type current = Some (py "response") →
  let r := resolve_next_node idx current_node_id option_id user_input in
  let opts := default [] (options current) in
  (option_id = None ∨ option_id = Some [] → ∃ e, r = Raise e ∧ InputError e)
  ∧ ∀ oid, option_id = Some oid → oid ≠ [] →
      (Forall (λ o, opt_id o ≠ Some oid) opts → ∃ e, r = Raise e ∧ NotFoundError e)
      ∧ ∀ pre o post,
          opts = pre ++ o :: post →
          Forall (λ o', opt_id o' ≠ Some oid) pre →
          opt_id o = Some oid →
          (opt_next_node_id o = None ∨ opt_next_node_id o = Some [] →
           ∃ e, r = Raise e ∧ NotFoundError e)
          ∧ ∀ next, opt_next_node_id o = Some next → next ≠ [] →
              (idx !! next = None → ∃ e, r = Raise e ∧ NotFoundError e)
              ∧ ∀ target, idx !! next = Some target → r = Ok target.
Proof.
  intros Hcur Htype r opts. unfold r, resolve_next_node. rewrite Hcur.
  rewrite bool_decide_eq_true_2 by done. fold opts. split.
  { intros [->| ->]; by eexists. }
  intros oid -> Hoid.
  assert (unset (Some oid) = false) as -> by by destruct oid.
  cbn [from_option id]. split.
  { intros Hnone. rewrite scan_options_none by done. by eexists. }
  intros pre o post -> Hpre Ho. rewrite scan_options_first by done. split.
  { intros [->| ->]; by eexists. }
  intros next -> Hnext.
  assert (unset (Some next) = false) as -> by by destruct next.
  cbn [from_option id]. unfold goto. split.
  - intros ->. by eexists.
  - by intros target ->.
Qed.

(** The menu [A], asked for its option 1, leads to [B]. *)
Lemma resolve_menu_witness :
  resolve_next_node Excerpt.index_ABCD (py "A") (Some (py "1")) None
  = Ok Excerpt.node_B.
Proof.
  pose proof (resolve_menu Excerpt.index_ABCD (py "A") Excerpt.node_A
                (Some (py "1")) None eq_refl (or_introl eq_refl)) as [_ H].
  destruct (H (py "1") eq_refl ltac:(discriminate)) as [_ H1].
  destruct (H1 [] Excerpt.option_1 [] eq_refl ltac:(constructor) eq_refl)
    as [_ H2].
  destruct (H2 (py "B") eq_refl ltac:(discriminate)) as [_ H3].
  apply H3. reflexivity.
Defined.

(** C6. On a current node whose type is none of menu, response, input
    and end, or is absent, [resolve_next_node] never raises: it returns
    the node of the current node's [next_node_id] when that is in the
    graph, and the current node itself when [next_node_id] is unset or
    not in the graph. *)
Theorem resolve_fallback (idx : gmap (list N) node) (current_node_id : pystr)
    (current : node) (option_id user_input : option pystr) :
  idx !! current_node_id = Some current →
  node_type current ≠ Some (py "menu") →
  node_type current ≠ Some (py "response") →
  node_type current ≠ Some (py "input") →
  node_type current ≠ Some (py "end") →
  let r := resolve_next_node idx current_node_id option_id user_input in
  (∀ next target,
     next_node_id current = Some next → idx !! next = Some target →
     r = Ok target)
  ∧ (next_node_id current = None → r = Ok current)
  ∧ (∀ next,
       next_node_id current = Some next → idx !! next = None → r = Ok current)
  ∧ ∃ n, r = Ok n.
Proof.
  intros Hcur Hmenu Hresp Hinput Hend r. unfold r, resolve_next_node.
  rewrite Hcur.
  rewrite bool_decide_eq_false_2 by (by intros [?|?]).
  rewrite !bool_decide_eq_false_2 by done.
  split; [by intros next target -> ->|].
  split; [by intros ->|].
  split; [by intros next -> ->|].
  destruct (next_node_id current); by eexists.
Qed.

(** The node [C], of type info, leads to [B]. *)
Lemma resolve_fallback_witness :
  resolve_next_node Excerpt.index_ABCD (py "C") None None = Ok Excerpt.node_B
  ∧ resolve_next_node Excerpt.index_ABCD (py "D") None None = Ok Excerpt.node_D.
Proof.
  split.
  - refine (proj1 (resolve_fallback Excerpt.index_ABCD (py "C") Excerpt.node_C
                     None None eq_refl _ _ _ _) (py "B") Excerpt.node_B eq_refl eq_refl);
      discriminate.
  - refine (proj1 (proj2 (resolve_fallback Excerpt.index_ABCD (py "D") Excerpt.node_D
                     None None eq_refl _ _ _ _)) eq_refl);
      discriminate.
Defined.

(** ** Loading the graph *)

Lemma index_nodes_app (l1 l2 : list node) (acc : gmap (list N) node) :
  index_nodes (l1 ++ l2) acc = index_nodes l1 acc ≫= index_nodes l2.
Proof.
  revert acc. induction l1 as [|n l1 IH]; intros acc; simpl; [done|].
  destruct (node_id n); [apply IH|done].
Qed.

Lemma index_nodes_total (l : list node) (acc : gmap (list N) node) :
  Forall (λ n, is_Some (node_id n)) l → ∃ idx, index_nodes l acc = Ok idx.
Proof.
  intros Hl. revert acc.
  induction Hl as [|n l [i Hi] Hl IH]; intros acc; simpl; [by eexists|].
  rewrite Hi. apply IH.
Qed.

(** Nodes of other ids leave the entry of an id as it was. *)
Lemma index_nodes_other (l : list node) (acc idx : gmap (list N) node)
    (i : pystr) :
  Forall (λ n, node_id n ≠ Some i) l →
  index_nodes l acc = Ok idx → idx !! i = acc !! i.
Proof.
  intros Hl. revert acc.
  induction Hl as [|n l Hn Hl IH]; intros acc; simpl; [by intros [= ->]|].
  destruct (node_id n) as [j|] eqn:Hj; [|done].
  intros ->%IH. apply lookup_insert_ne. congruence.
Qed.

(** An id is absent from the index exactly when no node has it. *)
Lemma index_nodes_absent (l : list node) (idx : gmap (list N) node) (i : pystr) :
  index_nodes l ∅ = Ok idx →
  idx !! i = None ↔ Forall (λ n, node_id n ≠ Some i) l.
Proof.
  intros Hidx. split.
  - intros Hnone. apply Forall_forall. intros n Hn Hi.
    apply list_elem_of_split in Hn as (pre & post & ->).
    rewrite index_nodes_app in Hidx.
    destruct (index_nodes pre ∅) as [acc|] eqn:Hpre; [|done].
    simpl in Hidx. rewrite Hi in Hidx.
    assert (∀ (k : list node) a, a !! i ≠ None →
              ∀ idx', index_nodes k a = Ok idx' → idx' !! i ≠ None) as Hkeep.
    { clear. induction k as [|n k IH]; intros a Ha idx'; simpl.
      - by intros [= <-].
      - destruct (node_id n) as [j|]; [|done]. apply IH.
        destruct (decide (j = i)) as [->|Hne].
        + by rewrite lookup_insert_eq.
        + by rewrite lookup_insert_ne. }
    eapply Hkeep; [|exact Hidx|exact Hnone]. by rewrite lookup_insert_eq.
  - intros Hl. by rewrite (index_nodes_other l ∅ idx i Hl Hidx).
Qed.

(** C7 (as amended). When every descriptor has an id the index is
    built, and it holds for each id the descriptor that comes last in
    the definition among those with that id. *)
Theorem index_keeps_last (nodes : list node) :
  Forall (λ n, is_Some (node_id n)) nodes →
  ∃ idx, index_nodes nodes ∅ = Ok idx
         ∧ ∀ pre n post i,
             nodes = pre ++ n :: post →
             node_id n = Some i →
             Forall (λ m, node_id m ≠ Some i) post →
             idx !! i = Some n.
Proof.
  intros Hids. destruct (index_nodes_total nodes ∅ Hids) as [idx Hidx].
  exists idx. split; [done|]. intros pre n post i -> Hi Hpost.
  rewrite index_nodes_app in Hidx.
  destruct (index_nodes pre ∅) as [acc|] eqn:Hpre; [|done].
  simpl in Hidx. rewrite Hi in Hidx.
  rewrite (index_nodes_other post _ idx i Hpost Hidx).
  apply lookup_insert_eq.
Qed.

Lemma index_keeps_last_witness :
  ∃ idx, index_nodes [Excerpt.node_A; Excerpt.node_B; Excerpt.node_A_again] ∅ = Ok idx
         ∧ idx !! py "A" = Some Excerpt.node_A_again.
Proof.
  destruct (index_keeps_last [Excerpt.node_A; Excerpt.node_B; Excerpt.node_A_again])
    as (idx & Hidx & Hlast).
  { repeat constructor; by eexists. }
  exists idx. split; [done|].
  apply (Hlast [Excerpt.node_A; Excerpt.node_B] Excerpt.node_A_again []);
    [reflexivity|reflexivity|constructor].
Defined.

(** C7 fails as stated: of two descriptors with the id [A], the index
    holds the second, not the first. *)
Lemma index_does_not_keep_first :
  ∃ g, load_bot Excerpt.bot_twice_A = Ok g
       ∧ nodes_index g !! py "A" = Some Excerpt.node_A_again
       ∧ nodes_index g !! py "A" ≠ Some Excerpt.node_A.
Proof. eexists. split; [reflexivity|]. split; [reflexivity|discriminate]. Qed.

(** What the index holds came from the definition, under its own id. *)
Lemma index_nodes_lookup (l : list node) (acc idx : gmap (list N) node)
    (i : pystr) (n : node) :
  index_nodes l acc = Ok idx →
  idx !! i = Some n →
  (n ∈ l ∧ node_id n = Some i) ∨ acc !! i = Some n.
Proof.
  revert acc. induction l as [|m l IH]; intros acc; simpl.
  - intros [= ->]. by right.
  - destruct (node_id m) as [j|] eqn:Hj; [|done].
    intros Hidx Hn. destruct (IH _ Hidx Hn) as [[? ?]|Hacc].
    + left. split; [by right|done].
    + destruct (decide (j = i)) as [->|Hne].
      * rewrite lookup_insert_eq in Hacc. injection Hacc as <-.
        left. split; [left|done].
      * rewrite lookup_insert_ne in Hacc by done. by right.
Qed.

(** C8 (as amended). Loading fails with a [KeyError] when the
    definition has no nodes. When it has nodes, each with an id,
    loading succeeds whatever the start node id, which is the given one
    or else inicio_menu; the start node is looked up by every call of
    [api_start], which answers with status 500 when no loaded node has
    that id and with the payload of a node of that id otherwise. *)
Theorem load_bot_start_checked_lazily (d : bot_definition) :
  (def_nodes d = None → load_bot d = Raise (KeyError (py "nodes")))
  ∧ ∀ nodes,
      def_nodes d = Some nodes →
      Forall (λ n, is_Some (node_id n)) nodes →
      ∃ g, load_bot d = Ok g
           ∧ start_node_id g = default (py "inicio_menu") (def_start_node_id d)
           ∧ (Forall (λ n, node_id n ≠ Some (start_node_id g)) nodes →
              api_start g = JsonError 500 (start_node_id g))
           ∧ ((∃ n, n ∈ nodes ∧ node_id n = Some (start_node_id g)) →
              ∃ n, n ∈ nodes ∧ node_id n = Some (start_node_id g)
                   ∧ api_start g = Json (node_to_payload n)).
Proof.
  split; [unfold load_bot; by intros ->|].
  intros nodes Hd Hids. unfold load_bot. rewrite Hd.
  destruct (index_nodes_total nodes ∅ Hids) as [idx Hidx].
  rewrite Hidx. eexists. split; [reflexivity|]. split; [reflexivity|].
  unfold api_start. cbn [nodes_index start_node_id].
  set (start := default (py "inicio_menu") (def_start_node_id d)).
  split.
  - intros Hnone.
    by rewrite (proj2 (index_nodes_absent nodes idx start Hidx) Hnone).
  - intros (m & Hm & Hmi). destruct (idx !! start) as [n|] eqn:Hn.
    + destruct (index_nodes_lookup _ _ _ _ _ Hidx Hn) as [[? ?]|Hacc]; [|done].
      by exists n.
    + apply (index_nodes_absent nodes idx start Hidx) in Hn.
      by eapply Forall_forall in Hn.
Qed.

Lemma load_bot_start_checked_lazily_witness :
  ∃ g, load_bot Excerpt.bot_without_start = Ok g
       ∧ start_node_id g = py "inicio_menu"
       ∧ api_start g = JsonError 500 (py "inicio_menu").
Proof.
  destruct (proj2 (load_bot_start_checked_lazily Excerpt.bot_without_start)
              [Excerpt.node_A; Excerpt.node_B] eq_refl)
    as (g & Hg & Hstart & H500 & _).
  { repeat constructor; by eexists. }
  exists g. split; [done|]. split; [done|].
  assert (Forall (λ n, node_id n ≠ Some (start_node_id g))
            [Excerpt.node_A; Excerpt.node_B]) as Hnone
    by (rewrite Hstart; repeat constructor; discriminate).
  specialize (H500 Hnone). rewrite Hstart in H500. exact H500.
Defined.

(** C8 fails as stated: a definition whose start node id, here the
    default, is the id of none of its nodes is loaded all the same. *)
Lemma load_accepts_missing_start :
  ∃ g, load_bot Excerpt.bot_without_start = Ok g
       ∧ nodes_index g !! start_node_id g = None.
Proof. eexists. split; reflexivity. Qed.

(** ** The enrichment loop *)

Section DictFacts.
Context {V : Type}.

Lemma dict_get_elem_of (k : pystr) (v : V) (d : list (list N * V)) :
  dict_get k d = Some v → (k, v) ∈ d.
Proof.
  induction d as [|[k' v'] d IH]; simpl; [done|].
  case_bool_decide as Hk.
  - intros [= ->]. subst. left.
  - intros ?%IH. by right.
Qed.

Lemma dict_get_key (k : pystr) (d : list (list N * V)) :
  k ∈ d.*1 → is_Some (dict_get k d).
Proof.
  induction d as [|[k' v'] d IH]; simpl; [by intros ?%elem_of_nil|].
  case_bool_decide as Hk; [by eexists|].
  intros [->|?]%elem_of_cons; [done|by apply IH].
Qed.

Lemma dict_set_elem_of (k k' : pystr) (v v' : V) (d : list (list N * V)) :
  (k', v') ∈ dict_set k v d → v' = v ∨ (k', v') ∈ d.
Proof.
  induction d as [|[k0 v0] d IH]; simpl.
  - intros [= -> ->]%list_elem_of_singleton. by left.
  - case_bool_decide as Hk.
    + intros [[= -> ->]|?]%elem_of_cons; [by left|]. right. by right.
    + intros [[= -> ->]|Hin]%elem_of_cons; [right; left|].
      destruct (IH Hin) as [?|?]; [by left|]. right. by right.
Qed.

Lemma subscript_Some (k : pystr) (v : V) (d : list (list N * V)) :
  dict_get k d = Some v → subscript d k = Ok v.
Proof. unfold subscript. by intros ->. Qed.

End DictFacts.

Section UnifyFacts.
Context `{RT : Runtime}.

Lemma fill_other (vals : fields) (rec : record) (k : pystr) :
  k ∉ vals.*1 → fill vals rec !! k = rec !! k.
Proof.
  unfold fill. revert rec. induction vals as [|[k' v'] vals IH]; intros rec Hk;
    simpl; [done|].
  rewrite fmap_cons, not_elem_of_cons in Hk. destruct Hk as [Hne Hk].
  rewrite IH by done. by apply lookup_insert_ne.
Qed.

Lemma fill_overlaid (vals : fields) (rec : record) :
  overlaid vals rec (fill vals rec).
Proof.
  intros k. split; [apply fill_other|].
  revert rec. induction vals as [|[k' v'] vals IH]; intros rec;
    [by intros ?%elem_of_nil|].
  destruct (decide (k ∈ vals.*1)) as [Hin|Hout].
  - intros _. destruct (IH (<[k' := VStr v']> rec) Hin) as (v & Hv & Hk).
    exists v. split; [by right|done].
  - rewrite fmap_cons. intros [->|?]%elem_of_cons; [|done].
    exists v'. split; [left|].
    change (fill ((k', v') :: vals) rec) with (fill vals (<[k' := VStr v']> rec)).
    rewrite fill_other by done. apply lookup_insert_eq.
Qed.

(** Every value of [norm_to_key] is a key of [mapping]. *)
Lemma norm_to_key_values (mapping : list (list N * fields)) (nk k : pystr) :
  (nk, k) ∈ build_norm_to_key mapping → k ∈ mapping.*1.
Proof.
  unfold build_norm_to_key.
  assert (∀ keys acc, (nk, k) ∈ foldl add_norm_key acc keys →
                      (nk, k) ∈ acc ∨ k ∈ keys) as Hfold.
  { induction keys as [|k0 keys IH]; intros acc; simpl; [by left|].
    intros [Hacc|?]%IH; [|right; by right].
    unfold add_norm_key in Hacc. case_bool_decide; [by left|].
    apply dict_set_elem_of in Hacc as [->|?]; [right; left|by left]. }
  intros [?%elem_of_nil|?]%Hfold; done.
Qed.

Lemma subscript_norm_to_key (mapping : list (list N * fields)) (nk mk : pystr) :
  dict_get nk (build_norm_to_key mapping) = Some mk →
  ∃ vals, dict_get mk mapping = Some vals.
Proof.
  intros Hmk%dict_get_elem_of%norm_to_key_values. by apply dict_get_key.
Qed.

End UnifyFacts.

Section UnifyLoop.
Context `{RT : Runtime}.

Lemma unify_record_iteration (mapping : list (list N * fields))
    (rec : record) (st : report) :
  proposes_candidates →
  ∃ rec' st',
    unify_record mapping (build_norm_to_key mapping) rec st = Ok (rec', st')
    ∧ iteration mapping rec st rec' st'.
Proof.
  intros Hgcm. unfold unify_record. cbv zeta.
  destruct (rec !! py "nombre") as [[name|o]|] eqn:Hname; last first.
  { do 2 eexists. split; [done|]. rewrite <-Hname. constructor.
    intros ? ?. by rewrite Hname. }
  { do 2 eexists. split; [done|]. rewrite <-Hname. constructor.
    intros ? ?. by rewrite Hname. }
  destruct (dict_get name mapping) as [vals|] eqn:Hexact.
  { do 2 eexists. split; [done|].
    apply (iteration_enriched _ _ _ name name vals); try done.
    left. by rewrite Hexact. }
  set (nname := normalize_name (VStr name)).
  set (ntk := build_norm_to_key mapping).
  assert (∀ mk, tier_hit mapping name mk →
            nname ≠ [] ∧
            (dict_get nname ntk = Some mk
             ∨ dict_get nname ntk = None
               ∧ ∃ m rest, get_close_matches nname ntk.*1 1 (75 # 100) = m :: rest
                           ∧ dict_get m ntk = Some mk)) as Hhit.
  { intros mk [[[? ?] _]|[(_ & ? & ?)|(_ & ? & ? & ?)]]; [congruence|by auto..]. }
  assert ((∀ mk, ¬ tier_hit mapping name mk) →
          iteration mapping rec st rec (add_not_found (Some (VStr name)) st))
    as Hkept.
  { intros Hno. rewrite <-Hname. constructor. intros name' mk Hn.
    rewrite Hname in Hn. injection Hn as <-. apply Hno. }
  destruct (decide (nname = [])) as [Hempty|Hfull].
  { rewrite (bool_decide_eq_false_2 (nname ≠ [])) by auto. cbn [andb].
    do 2 eexists. split; [done|]. apply Hkept.
    intros mk [? _]%Hhit. done. }
  rewrite (bool_decide_eq_true_2 (nname ≠ [])) by done. cbn [andb].
  destruct (dict_get nname ntk) as [mk|] eqn:Hnorm.
  { rewrite bool_decide_eq_true_2 by by eexists.
    destruct (subscript_norm_to_key mapping nname mk Hnorm) as [vals Hvals].
    rewrite (subscript_Some _ _ _ Hnorm). cbn [mbind result_bind].
    rewrite (subscript_Some _ _ _ Hvals). do 2 eexists. split; [done|].
    apply (iteration_enriched _ _ _ name mk vals); try done.
    right. left. by rewrite Hexact. }
  rewrite bool_decide_eq_false_2 by (by intros [? ?]).
  destruct (get_close_matches nname ntk.*1 1 cutoff_unify) as [|m rest] eqn:Hclose.
  { do 2 eexists. split; [done|]. apply Hkept.
    intros mk [_ [?|(_ & ? & ? & Hm & _)]]%Hhit; [congruence|].
    unfold cutoff_unify in Hclose. congruence. }
  assert (m ∈ ntk.*1) as [mk Hmk]%dict_get_key.
  { eapply Hgcm. rewrite Hclose. left. }
  destruct (subscript_norm_to_key mapping m mk Hmk) as [vals Hvals].
  rewrite (subscript_Some _ _ _ Hmk). cbn [mbind result_bind].
  rewrite (subscript_Some _ _ _ Hvals). do 2 eexists. split; [done|].
  apply (iteration_enriched _ _ _ name mk vals); try done.
  right. right. rewrite Hexact. fold nname ntk. rewrite Hnorm.
  repeat split; try done. by exists m, rest.
Qed.

Lemma unify_loop_unified (mapping : list (list N * fields))
    (records : list record) (st : report) :
  proposes_candidates →
  ∃ out rep nf u,
    unify_loop mapping (build_norm_to_key mapping) records st = Ok (out, rep)
    ∧ unified mapping records out nf u
    ∧ not_found rep = not_found st ++ nf
    ∧ updated rep = (updated st + u)%nat.
Proof.
  intros Hgcm. revert st. induction records as [|rec rest IH]; intros st.
  { exists [], st, [], 0%nat. simpl. rewrite app_nil_r.
    repeat split; [constructor|lia]. }
  destruct (unify_record_iteration mapping rec st Hgcm) as (rec' & st' & Hrec & Hit).
  destruct (IH st') as (out & rep & nf & u & Hloop & Hun & Hnf & Hup).
  cbn [unify_loop]. rewrite Hrec. cbn [mbind result_bind]. rewrite Hloop.
  cbn [mbind result_bind].
  destruct Hit as [Hno|name mk vals st' Hname Hhit Hvals Hup' Hnf'].
  - exists (rec :: out), rep, (rec !! py "nombre" :: nf), u.
    split; [done|]. split; [by constructor|].
    split; [by rewrite Hnf; simpl; rewrite <-app_assoc|done].
  - exists (fill vals rec :: out), rep, nf, (S u).
    split; [done|]. split; [by econstructor|].
    split; [by rewrite Hnf, Hnf'|lia].
Qed.

Lemma unified_length (mapping : list (list N * fields))
    (records out : list record) (nf : list (option value)) (u : nat) :
  unified mapping records out nf u →
  length out = length records ∧ (u + length nf = length records)%nat.
Proof. induction 1; simpl; lia. Qed.

Lemma unified_lookup (mapping : list (list N * fields))
    (records out : list record) (nf : list (option value)) (u : nat)
    (i : nat) (rec : record) :
  unified mapping records out nf u →
  records !! i = Some rec →
  ∃ rec', out !! i = Some rec'
    ∧ ((no_hit mapping rec ∧ rec' = rec ∧ rec !! py "nombre" ∈ nf)
       ∨ (∃ name mk vals,
            rec !! py "nombre" = Some (VStr name)
            ∧ tier_hit mapping name mk
            ∧ dict_get mk mapping = Some vals
            ∧ overlaid vals rec rec')).
Proof.
  intros Hun. revert i.
  induction Hun as [|r rest out nf u Hno Hun IH
                    |r rest out nf u name mk vals Hname Hhit Hvals Hun IH];
    intros [|i]; simpl; try done.
  - intros [= ->]. exists rec. split; [done|]. left. repeat split; [done|left].
  - intros (rec' & ? & [(? & ? & ?)|?])%IH; exists rec'; (split; [done|]).
    + left. repeat split; [done..|by right].
    + by right.
  - intros [= ->]. eexists. split; [done|]. right.
    exists name, mk, vals. repeat split; try done; apply fill_overlaid.
  - apply IH.
Qed.

End UnifyLoop.

(** C9. The enrichment keeps every record (given that the matcher only
    proposes candidates, the run completes): the output has the length
    of the input and every record is either counted as updated or
    reported as not found; a record that matches in none of the three
    tiers is reported and is written back as it was; a record that
    matches an entry is written back with the fields of that entry set
    to the entry's values and every other field as it was. *)
Theorem unify_non_destructive `{RT : Runtime}
    (mapping : list (list N * fields)) (records : list record) :
  proposes_candidates →
  ∃ out rep,
    unify mapping records = Ok (out, rep)
    ∧ length out = length records
    ∧ (updated rep + length (not_found rep) = length records)%nat
    ∧ ∀ i rec,
        records !! i = Some rec →
        ∃ rec', out !! i = Some rec'
          ∧ ((no_hit mapping rec ∧ rec' = rec
              ∧ rec !! py "nombre" ∈ not_found rep)
             ∨ (∃ name mk vals,
                  rec !! py "nombre" = Some (VStr name)
                  ∧ tier_hit mapping name mk
                  ∧ dict_get mk mapping = Some vals
                  ∧ ∀ k, (k ∉ vals.*1 → rec' !! k = rec !! k)
                         ∧ (k ∈ vals.*1 →
                            ∃ v, (k, v) ∈ vals ∧ rec' !! k = Some (VStr v)))).
Proof.
  intros Hgcm. unfold unify.
  destruct (unify_loop_unified mapping records report0 Hgcm)
    as (out & rep & nf & u & Hloop & Hun & Hnf & Hup).
  simpl in Hnf, Hup. subst nf u.
  exists out, rep. split; [done|].
  destruct (unified_length _ _ _ _ _ Hun) as [Hlen Hcount].
  split; [done|]. split; [done|].
  intros i rec Hi. exact (unified_lookup _ _ _ _ _ i rec Hun Hi).
Qed.

Section UnifyExamples.
Local Existing Instance Excerpt.runtime.

Lemma excerpt_proposes_candidates : proposes_candidates.
Proof.
  intros word possibilities n cutoff m Hm.
  apply elem_of_take in Hm as (i & Hi%list_elem_of_lookup_2 & _).
  by apply list_elem_of_filter in Hi as [_ ?].
Qed.

(** A run: three of the four records are updated, the fourth is
    reported; the third, enriched through the fuzzy tier, has the cost
    of the entry and its own name. *)
Example unify_run :
  match unify Excerpt.mapping_otamendi Excerpt.records_four with
  | Ok (out, rep) =>
      (length out, updated rep, not_found rep, fuzzy_matches rep,
       out !! 2%nat ≫= (.!! py "Costo_de_ingreso"),
       out !! 2%nat ≫= (.!! py "nombre"),
       out !! 3%nat ≫= (.!! py "Costo_de_ingreso"))
      = (4%nat, 3%nat, [Some (VStr (py "Laguna"))],
         [(py "Otamendy", py "Otamendi")],
         Some (VStr (py "Gratuito")), Some (VStr (py "Otamendy")), None)
  | Raise _ => False
  end.
Proof. vm_compute. reflexivity. Qed.

Lemma unify_non_destructive_witness :
  proposes_candidates
  ∧ ∃ out rep,
      unify Excerpt.mapping_otamendi Excerpt.records_four = Ok (out, rep)
      ∧ length out = 4%nat
      ∧ (updated rep + length (not_found rep) = 4)%nat.
Proof.
  split; [exact excerpt_proposes_candidates|].
  destruct (unify_non_destructive Excerpt.mapping_otamendi Excerpt.records_four
              excerpt_proposes_candidates)
    as (out & rep & Hrun & Hlen & Hcount & _).
  exists out, rep. split; [exact Hrun|]. split; [exact Hlen|exact Hcount].
Defined.

End UnifyExamples.

(** * Further properties *)

(** ** Input nodes, end nodes and [/api/step] *)

(** On a current node of type input the step is decided by the node's
    own [next_node_id], whatever option and text are sent: without one,
    or with an empty one, the call raises; with one that is not in the
    graph it raises; otherwise the node of that id is returned. *)
Theorem resolve_input (idx : gmap (list N) node) (current_node_id : pystr)
    (current : node) (option_id user_input : option pystr) :
  idx !! current_node_id = Some current →
  node_type current = Some (py "input") →
  let r := resolve_next_node idx current_node_id option_id user_input in
  (next_node_id current = None ∨ next_node_id current = Some [] →
   r = Raise (ValueError (Nodo_input_sin_next current_node_id)))
  ∧ ∀ next, next_node_id current = Some next → next ≠ [] →
      (idx !! next = None →
       r = Raise (ValueError (Next_node_id_no_existe next)))
      ∧ ∀ target, idx !! next = Some target → r = Ok target.
Proof.
  intros Hcur Htype r. unfold r, resolve_next_node. rewrite Hcur, Htype.
  rewrite bool_decide_eq_false_2 by (intros [?|?]; discriminate).
  rewrite bool_decide_eq_true_2 by done. split.
  { by intros [->| ->]. }
  intros next -> Hnext.
  assert (unset (Some next) = false) as -> by by destruct next.
  cbn [from_option id]. unfold goto. split; [by intros ->|by intros target ->].
Qed.

(** Every failure of [resolve_next_node] is a [ValueError]. *)
Lemma resolve_raises_ValueError (idx : gmap (list N) node)
    (current_node_id : pystr) (option_id user_input : option pystr) (e : error) :
  resolve_next_node idx current_node_id option_id user_input = Raise e →
  ∃ text, e = ValueError text.
Proof.
  unfold resolve_next_node, goto.
  repeat (case_match; try done); intros [= <-]; by eexists.
Qed.

(** On strings [resolve_request] is [resolve_next_node]. *)
Lemma resolve_request_strings (idx : gmap (list N) node) (k : pystr)
    (option_id user_input : option pystr) :
  match resolve_next_node idx k option_id user_input with
  | Ok n =>
      resolve_request idx (Some (FStr k)) (FStr <$> option_id) (FStr <$> user_input)
      = Next n
  | Raise (ValueError text) =>
      resolve_request idx (Some (FStr k)) (FStr <$> option_id) (FStr <$> user_input)
      = Raises (Value_error text)
  | Raise (KeyError _) => False
  end.
Proof.
  unfold resolve_request, resolve_next_node, goto_step, goto.
  destruct (idx !! k) as [current|]; [|done].
  destruct option_id as [oid|]; simpl; repeat (case_match; try done);
    congruence.
Qed.


Lemma resolve_input_witness :
  resolve_next_node Excerpt.index_ABCDE (py "E") (Some (py "9")) (Some (py "Ana"))
  = Ok Excerpt.node_B.
Proof.
  refine (proj2 (proj2 (resolve_input Excerpt.index_ABCDE (py "E") Excerpt.node_E
                          (Some (py "9")) (Some (py "Ana")) eq_refl eq_refl)
                   (py "B") eq_refl _) Excerpt.node_B eq_refl).
  discriminate.
Defined.


(** What [resolve_next_node] returns is held by the index. *)
Lemma resolve_returns_indexed (idx : gmap (list N) node)
    (current_node_id : pystr) (option_id user_input : option pystr) (n : node) :
  resolve_next_node idx current_node_id option_id user_input = Ok n →
  ∃ k, idx !! k = Some n.
Proof.
  unfold resolve_next_node, goto.
  destruct (idx !! current_node_id) as [current|] eqn:Hcur; [|done].
  destruct (bool_decide (_ ∨ _)).
  { destruct (unset option_id); [done|].
    destruct (unset (scan_options _ _)); [done|].
    destruct (idx !! default [] (scan_options _ _)) eqn:Hnext; [|done].
    intros [= <-]. eauto. }
  destruct (bool_decide (node_type current = Some (py "input"))).
  { destruct (unset (next_node_id current)); [done|].
    destruct (idx !! default [] (next_node_id current)) eqn:Hnext; [|done].
    intros [= <-]. eauto. }
  destruct (bool_decide (node_type current = Some (py "end")));
    [intros [= <-]; eauto|].
  destruct (next_node_id current) as [next|]; [|intros [= <-]; eauto].
  destruct (idx !! next) eqn:Hnext; simpl; intros [= <-]; eauto.
Qed.

(** In a graph indexed from a definition, the node a step returns is a
    node of the definition, held by the index under its own id: the id
    shown in the payload can be sent back, and the next step from it
    does not fail for an unknown node. *)
Theorem resolve_stays_in_graph (nodes : list node) (idx : gmap (list N) node)
    (current_node_id : pystr) (option_id user_input : option pystr) (n : node) :
  index_nodes nodes ∅ = Ok idx →
  resolve_next_node idx current_node_id option_id user_input = Ok n →
  n ∈ nodes
  ∧ ∃ k, p_node_id (node_to_payload n) = Some k
         ∧ idx !! k = Some n
         ∧ ∀ option_id' user_input',
             resolve_next_node idx k option_id' user_input'
             ≠ Raise (ValueError (Nodo_no_encontrado k)).
Proof.
  intros Hidx [k Hk]%resolve_returns_indexed.
  destruct (index_nodes_lookup nodes ∅ idx k n Hidx Hk) as [[Hn Hid]|?]; [|done].
  split; [done|]. exists k. split; [done|]. split; [done|].
  intros option_id' user_input'. unfold resolve_next_node, goto. rewrite Hk.
  repeat (case_match; try done).
Qed.

Lemma resolve_stays_in_graph_witness :
  ∃ idx, index_nodes [Excerpt.node_A; Excerpt.node_B; Excerpt.node_E] ∅ = Ok idx
         ∧ resolve_next_node idx (py "E") None None = Ok Excerpt.node_B
         ∧ Excerpt.node_B ∈ [Excerpt.node_A; Excerpt.node_B; Excerpt.node_E].
Proof.
  eexists. split; [reflexivity|]. split; [reflexivity|].
  eapply (resolve_stays_in_graph _ _ (py "E") None None); reflexivity.
Defined.

(** Once an end node is shown, every further step from it, with any
    option and any text, shows it again, flagged as the end. *)
Theorem api_step_end (idx : gmap (list N) node) (k : pystr) (n : node)
    (option_id user_input : option field) :
  idx !! k = Some n →
  k ≠ [] →
  node_type n = Some (py "end") →
  api_step idx (Body_object (Some (FStr k)) option_id user_input)
  = StepJson (node_to_payload n)
  ∧ is_end (node_to_payload n) = true
  ∧ expects_input (node_to_payload n) = false.
Proof.
  intros Hk Hne Htype. unfold api_step, resolve_request.
  assert (field_unset (Some (FStr k)) = false) as -> by by destruct k.
  rewrite Hk, Htype.
  rewrite bool_decide_eq_false_2 by (intros [?|?]; discriminate).
  rewrite bool_decide_eq_false_2 by discriminate.
  rewrite bool_decide_eq_true_2 by done.
  split; [done|]. unfold node_to_payload. cbn [is_end expects_input].
  rewrite Htype. split; reflexivity.
Qed.

Lemma api_step_end_witness :
  api_step Excerpt.index_ABCDE
    (Body_object (Some (FStr (py "B"))) (Some (FStr (py "1")))
       (Some (FOther true false)))
  = StepJson (node_to_payload Excerpt.node_B).
Proof.
  refine (proj1 (api_step_end Excerpt.index_ABCDE (py "B") Excerpt.node_B
                   (Some (FStr (py "1"))) (Some (FOther true false))
                   eq_refl _ eq_refl)).
  discriminate.
Defined.

(** A node without a type is presented as a response, yet a step from
    it is the fallback one: it needs no option and never fails. *)
Theorem untyped_node_shown_as_response (idx : gmap (list N) node) (k : pystr)
    (n : node) (option_id user_input : option pystr) :
  idx !! k = Some n →
  node_type n = None →
  p_type (node_to_payload n) = py "response"
  ∧ ∃ m, resolve_next_node idx k option_id user_input = Ok m.
Proof.
  intros Hk Htype. unfold node_to_payload, resolve_next_node.
  rewrite Hk, Htype. split; [done|].
  rewrite bool_decide_eq_false_2 by (intros [?|?]; discriminate).
  rewrite !bool_decide_eq_false_2 by discriminate.
  destruct (next_node_id n); by eexists.
Qed.

Lemma untyped_node_shown_as_response_witness :
  p_type (node_to_payload Excerpt.node_D) = py "response"
  ∧ ∃ m, resolve_next_node Excerpt.index_ABCDE (py "D") None None = Ok m.
Proof.
  exact (untyped_node_shown_as_response Excerpt.index_ABCDE (py "D")
           Excerpt.node_D None None eq_refl eq_refl).
Defined.

(** ** Trimming *)

Section StripFacts.
Context `{RT : Runtime}.

Lemma lstrip_starts_word (s : pystr) : starts_space (lstrip s) = false.
Proof.
  induction s as [|c s IH]; simpl; [done|].
  destruct (isspace c) eqn:Hc; [done|]. simpl. by rewrite Hc.
Qed.

Lemma lstrip_blank_app (pre s : pystr) :
  Forall (λ c, isspace c = true) pre → lstrip (pre ++ s) = lstrip s.
Proof. induction 1 as [|c pre Hc Hpre IH]; simpl; [done|]. by rewrite Hc. Qed.

Lemma lstrip_app (s t : pystr) :
  lstrip (s ++ t) = match lstrip s with [] => lstrip t | _ => lstrip s ++ t end.
Proof.
  induction s as [|c s IH]; simpl; [by destruct (lstrip t)|].
  by destruct (isspace c).
Qed.

Lemma lstrip_blank (s : pystr) :
  Forall (λ c, isspace c = true) s → lstrip s = [].
Proof. induction 1 as [|c s Hc Hs IH]; simpl; [done|]. by rewrite Hc. Qed.

(** Trailing blanks do not survive the second pass of [strip]. *)
Lemma rstrip_blank_app (s post : pystr) :
  Forall (λ c, isspace c = true) post →
  lstrip (reverse (s ++ post)) = lstrip (reverse s).
Proof.
  intros Hpost. rewrite reverse_app. apply lstrip_blank_app.
  by apply Forall_reverse.
Qed.

Lemma strip_padded (pre s post : pystr) :
  Forall (λ c, isspace c = true) pre →
  Forall (λ c, isspace c = true) post →
  strip (pre ++ s ++ post) = strip s.
Proof.
  intros Hpre Hpost. unfold strip. rewrite lstrip_blank_app by done.
  rewrite lstrip_app. destruct (lstrip s) as [|c u] eqn:Hs.
  - by rewrite (lstrip_blank post Hpost).
  - by rewrite (rstrip_blank_app (c :: u) post Hpost).
Qed.

(** What [strip] returns neither begins nor ends with whitespace. *)
Lemma strip_starts_word (s : pystr) : starts_space (strip s) = false.
Proof.
  unfold strip. pose proof (lstrip_starts_word s) as Hl.
  destruct (lstrip s) as [|c u]; [done|]. simpl in Hl.
  assert (∀ t : pystr, lstrip (reverse t ++ [c]) ≠ [] ∧
            ∃ v, lstrip (reverse t ++ [c]) = v ++ [c]) as Hlast.
  { intros t. induction (reverse t) as [|d r IH]; simpl.
    - rewrite Hl. split; [done|]. by exists [].
    - destruct (isspace d); [done|]. split; [done|]. by exists (d :: r). }
  rewrite reverse_cons. destruct (Hlast u) as [_ [v ->]].
  rewrite reverse_app. simpl. by rewrite Hl.
Qed.

Lemma strip_ends_word (s : pystr) : starts_space (reverse (strip s)) = false.
Proof. unfold strip. rewrite reverse_involutive. apply lstrip_starts_word. Qed.

Lemma strip_strip (s : pystr) : strip (strip s) = strip s.
Proof. apply strip_word; [apply strip_starts_word|apply strip_ends_word]. Qed.

End StripFacts.

(** ** More on [_normalize_name] and [api_reservas] *)

Section SearchMore.
Context `{RT : Runtime}.

Lemma resolve_matches_in_table (table : list record) (matches : list pystr)
    (r : record) :
  r ∈ resolve_matches matches table → r ∈ table.
Proof.
  induction matches as [|m ms IH]; simpl; [by intros ?%elem_of_nil|].
  destruct (first_named m table) as [r'|] eqn:Hr'; [|done].
  intros [->|?]%elem_of_cons; [|by apply IH].
  apply first_named_Some in Hr' as (pre & post & -> & _).
  apply elem_of_app. right. left.
Qed.

Lemma take_elem_of {A} (n : nat) (l : list A) (x : A) : x ∈ take n l → x ∈ l.
Proof. by intros (i & ?%list_elem_of_lookup_2 & _)%elem_of_take. Qed.

End SearchMore.

(** A normalised name is a sequence of words joined by single spaces,
    without blanks at either end; every character of a word is
    alphanumeric, a hyphen or an underscore, and none is a combining
    mark. (Space is whitespace.) *)
Theorem normalize_name_shape `{RT : Runtime} (x : option value) :
  isspace SP = true →
  ∃ words,
    _normalize_name x = join SP words
    ∧ Forall token words
    ∧ Forall (Forall (λ c, combining c = 0
                           ∧ (isalnum c = true ∨ c ∈ py "-_"))) words.
Proof.
  intros Hsp.
  assert (∀ s, ∃ words,
            normalize_text s = join SP words ∧ Forall token words
            ∧ Forall (Forall (λ c, combining c = 0
                                   ∧ (isalnum c = true ∨ c ∈ py "-_"))) words)
    as Htext.
  { intros s. unfold normalize_text.
    set (s5 := keep_or_space <$> _). exists (split s5).
    split; [done|]. split; [apply split_tokens|].
    apply Forall_forall. intros w Hw. apply Forall_forall. intros c Hc.
    pose proof (split_tokens s5) as Htok.
    eapply Forall_forall in Htok as [_ Hns]; [|exact Hw].
    eapply Forall_forall in Hns; [|exact Hc].
    pose proof (split_chars _ _ _ Hw Hc) as (c' & Hcc' & Hc')%list_elem_of_fmap.
    apply list_elem_of_filter in Hc' as [Hcomb _].
    revert Hcc'. unfold keep_or_space.
    destruct (isalnum c') eqn:Ha; simpl; [intros ->; auto|].
    destruct (isspace c') eqn:Hs; simpl; [intros ->; congruence|].
    case_bool_decide; intros ->; [auto|congruence]. }
  unfold _normalize_name. destruct x as [v|].
  - destruct (falsy (Some v)); [|apply Htext]. by exists [].
  - by exists [].
Qed.

(** Every record [api_reservas] returns is a record of the table. *)
Theorem search_returns_table_records `{RT : Runtime}
    (table : list record) (q : option pystr) :
  Forall (λ r, r ∈ table) (api_reservas table q).
Proof.
  apply Forall_forall. intros r. unfold api_reservas.
  repeat case_match; try (by intros ?%elem_of_nil).
  - by intros [_ ?]%take_elem_of%list_elem_of_filter.
  - by intros [_ ?]%take_elem_of%list_elem_of_filter.
  - by intros ?%take_elem_of%resolve_matches_in_table.
Qed.

(** When some name contains the normalised query, so that the exact or
    the substring tier answers, the answer keeps the order of the
    table: it is obtained from the table by leaving records out. *)
Theorem search_keeps_table_order `{RT : Runtime}
    (table : list record) (q : option pystr) :
  let nq := _normalize_name (Some (VStr (strip (default [] q)))) in
  (∃ r, r ∈ table ∧ substring nq (nombre_norm r)) →
  api_reservas table q `sublist_of` table.
Proof.
  intros nq Hsub. destruct (decide (strip (default [] q) = [])) as [Hq|Hq].
  { rewrite search_blank by done. apply sublist_nil_l. }
  destruct (decide (filter (λ r, nombre_norm r = nq) table = [])) as [Hex|Hex].
  - rewrite search_substring; [| done | | done].
    + etrans; [apply sublist_take|apply sublist_filter].
    + by intros ?%(filter_nonempty (λ r, nombre_norm r = nq)).
  - rewrite search_exact; [|done|].
    + etrans; [apply sublist_take|apply sublist_filter].
    + by apply (filter_nonempty (λ r, nombre_norm r = nq)).
Qed.

(** Blanks around the query do not change the answer. *)
Theorem search_ignores_padding `{RT : Runtime}
    (table : list record) (pre q post : pystr) :
  Forall (λ c, isspace c = true) pre →
  Forall (λ c, isspace c = true) post →
  api_reservas table (Some (pre ++ q ++ post)) = api_reservas table (Some q).
Proof.
  intros Hpre Hpost. unfold api_reservas. cbn [from_option id].
  by rewrite strip_padded.
Qed.

Section SearchMoreExamples.
Local Existing Instance Excerpt.runtime.

Lemma normalize_name_shape_witness :
  ∃ words,
    _normalize_name (Some (VStr (py " Parque  Costero (del Sur) "))) = join SP words
    ∧ Forall token words
    ∧ Forall (Forall (λ c, combining c = 0
                           ∧ (isalnum c = true ∨ c ∈ py "-_"))) words.
Proof. apply normalize_name_shape. reflexivity. Defined.

Lemma search_keeps_table_order_witness :
  api_reservas Excerpt.table_padres (Some (py "padres"))
    `sublist_of` Excerpt.table_padres.
Proof.
  apply search_keeps_table_order.
  exists (Excerpt.named (py "Laguna de los Padres") (py "a")).
  split; [left|]. apply str_in_spec. vm_compute. reflexivity.
Defined.

Lemma search_ignores_padding_witness :
  api_reservas Excerpt.table_padres (Some (py "  " ++ py "padres" ++ [9; 32]))
  = api_reservas Excerpt.table_padres (Some (py "padres")).
Proof.
  apply search_ignores_padding; repeat constructor.
Defined.

End SearchMoreExamples.

(** ** The index of normalised keys, and running the enrichment again *)

Section DictMore.
Context {V : Type}.

Lemma dict_get_set_eq (k : pystr) (v : V) (d : list (list N * V)) :
  dict_get k (dict_set k v d) = Some v.
Proof.
  induction d as [|[k' v'] d IH]; simpl.
  - by rewrite bool_decide_eq_true_2.
  - case_bool_decide as Hk; simpl.
    + by rewrite bool_decide_eq_true_2.
    + by rewrite bool_decide_eq_false_2.
Qed.

Lemma dict_get_set_ne (k k' : pystr) (v : V) (d : list (list N * V)) :
  k ≠ k' → dict_get k' (dict_set k v d) = dict_get k' d.
Proof.
  intros Hne. induction d as [|[k0 v0] d IH]; simpl.
  - by rewrite bool_decide_eq_false_2.
  - case_bool_decide as Hk; simpl; [subst|].
    + by rewrite !bool_decide_eq_false_2.
    + by rewrite IH.
Qed.

Lemma dict_set_elem_of_key (k k' : pystr) (v v' : V) (d : list (list N * V)) :
  (k', v') ∈ dict_set k v d → (k' = k ∧ v' = v) ∨ (k', v') ∈ d.
Proof.
  induction d as [|[k0 v0] d IH]; simpl.
  - intros [= -> ->]%list_elem_of_singleton. by left.
  - case_bool_decide as Hk.
    + intros [[= -> ->]|?]%elem_of_cons; [by left|]. right. by right.
    + intros [[= -> ->]|Hin]%elem_of_cons; [right; left|].
      destruct (IH Hin) as [?|?]; [by left|]. right. by right.
Qed.

Lemma dict_set_keys (k : pystr) (v : V) (d : list (list N * V)) :
  (dict_set k v d).*1 = if bool_decide (k ∈ d.*1) then d.*1 else d.*1 ++ [k].
Proof.
  induction d as [|[k0 v0] d IH]; [done|].
  cbn [dict_set]. destruct (decide (k0 = k)) as [->|Hne].
  - rewrite bool_decide_eq_true_2 by done. csimpl.
    rewrite bool_decide_eq_true_2; [done|left].
  - rewrite bool_decide_eq_false_2 by done. csimpl. rewrite IH.
    destruct (decide (k ∈ d.*1)) as [Hin|Hin].
    + rewrite !bool_decide_eq_true_2; [done|by right|done].
    + rewrite !bool_decide_eq_false_2; [done| |done].
      by intros [?|?]%elem_of_cons.
Qed.

Lemma dict_set_NoDup (k : pystr) (v : V) (d : list (list N * V)) :
  NoDup d.*1 → NoDup (dict_set k v d).*1.
Proof.
  intros Hd. rewrite dict_set_keys. case_bool_decide as Hin; [done|].
  apply NoDup_app. split; [done|]. split; [|apply NoDup_singleton].
  by intros x Hx ->%list_elem_of_singleton.
Qed.

End DictMore.

Section NormToKey.
Context `{RT : Runtime}.

Lemma add_norm_key_get (d : list (list N * list N)) (k nk : pystr) :
  dict_get nk (add_norm_key d k)
  = if bool_decide (normalize_name (VStr k) = nk ∧ nk ≠ []) then Some k
    else dict_get nk d.
Proof.
  unfold add_norm_key. case_bool_decide as Hempty.
  - rewrite bool_decide_eq_false_2; [done|]. intros [? ?]. congruence.
  - case_bool_decide as Hk.
    + destruct Hk as [<- _]. apply dict_get_set_eq.
    + apply dict_get_set_ne. intros ?. apply Hk. split; congruence.
Qed.

Lemma norm_to_key_other (keys : list pystr) (acc : list (list N * list N))
    (nk : pystr) :
  Forall (λ k, normalize_name (VStr k) ≠ nk) keys →
  dict_get nk (foldl add_norm_key acc keys) = dict_get nk acc.
Proof.
  intros Hkeys. revert acc.
  induction Hkeys as [|k keys Hk Hkeys IH]; intros acc; simpl; [done|].
  rewrite IH, add_norm_key_get. rewrite bool_decide_eq_false_2; [done|].
  by intros [? _].
Qed.

Lemma norm_to_key_entries (keys : list pystr) (acc : list (list N * list N))
    (nk k : pystr) :
  (nk, k) ∈ foldl add_norm_key acc keys →
  (nk, k) ∈ acc ∨ (k ∈ keys ∧ normalize_name (VStr k) = nk ∧ nk ≠ []).
Proof.
  revert acc. induction keys as [|k0 keys IH]; intros acc; simpl; [by left|].
  intros [Hacc|(? & ? & ?)]%IH; [|right; split; [by right|done]].
  unfold add_norm_key in Hacc. case_bool_decide as Hempty; [by left|].
  apply dict_set_elem_of_key in Hacc as [[-> ->]|?]; [|by left].
  right. split; [left|done].
Qed.

Lemma norm_to_key_NoDup (keys : list pystr) (acc : list (list N * list N)) :
  NoDup acc.*1 → NoDup (foldl add_norm_key acc keys).*1.
Proof.
  revert acc. induction keys as [|k keys IH]; intros acc Hacc; simpl; [done|].
  apply IH. unfold add_norm_key. case_bool_decide; [done|].
  by apply dict_set_NoDup.
Qed.

End NormToKey.

(** The index [norm_to_key] built from [mapping]: its keys are
    distinct and none is empty; each entry pairs the normalised form of
    a key of [mapping] with that key; and a normalised form shared by
    several keys of [mapping] is indexed to the last of them. *)
Theorem norm_to_key_index `{RT : Runtime} (mapping : list (list N * fields)) :
  let norm_to_key := build_norm_to_key mapping in
  NoDup norm_to_key.*1
  ∧ (∀ nk k, (nk, k) ∈ norm_to_key →
       nk ≠ [] ∧ k ∈ mapping.*1 ∧ normalize_name (VStr k) = nk)
  ∧ (∀ pre k post,
       mapping.*1 = pre ++ k :: post →
       normalize_name (VStr k) ≠ [] →
       Forall (λ k', normalize_name (VStr k') ≠ normalize_name (VStr k)) post →
       dict_get (normalize_name (VStr k)) norm_to_key = Some k)
  ∧ (∀ nk, Forall (λ k, normalize_name (VStr k) ≠ nk) mapping.*1 →
       dict_get nk norm_to_key = None).
Proof.
  intros norm_to_key. unfold norm_to_key, build_norm_to_key.
  split; [apply norm_to_key_NoDup; constructor|]. split; [|split].
  - intros nk k [?%elem_of_nil|(? & ? & ?)]%norm_to_key_entries; done.
  - intros pre k post -> Hk Hpost.
    rewrite foldl_app. simpl. rewrite norm_to_key_other by done.
    rewrite add_norm_key_get. by rewrite bool_decide_eq_true_2.
  - intros nk Hnone. by rewrite norm_to_key_other.
Qed.

Section UnifyAgain.
Context `{RT : Runtime}.

(** A field set by [fill] holds what [vals] says, whatever the record. *)
Lemma fill_key_indep (vals : fields) (r1 r2 : record) (k : pystr) :
  k ∈ vals.*1 → fill vals r1 !! k = fill vals r2 !! k.
Proof.
  revert r1 r2. induction vals as [|[k' v'] vals IH]; intros r1 r2;
    [by intros ?%elem_of_nil|].
  change (fill ((k', v') :: vals) ?r) with (fill vals (<[k' := VStr v']> r)).
  destruct (decide (k ∈ vals.*1)) as [Hin|Hout]; [intros _; by apply IH|].
  rewrite fmap_cons. intros [->|?]%elem_of_cons; [|done].
  rewrite !fill_other by done. by rewrite !lookup_insert_eq.
Qed.

Lemma fill_fill (vals : fields) (rec : record) :
  fill vals (fill vals rec) = fill vals rec.
Proof.
  apply map_eq. intros k. destruct (decide (k ∈ vals.*1)) as [Hin|Hout].
  - by apply fill_key_indep.
  - by rewrite fill_other.
Qed.

Lemma tier_hit_functional (mapping : list (list N * fields)) (name mk1 mk2 : pystr) :
  tier_hit mapping name mk1 → tier_hit mapping name mk2 → mk1 = mk2.
Proof.
  unfold tier_hit.
  intros [[H1 ->]|[(H1 & _ & Hn1)|(H1 & _ & Hn1 & m1 & rest1 & Hc1 & Hm1)]]
         [[H2 ->]|[(H2 & _ & Hn2)|(H2 & _ & Hn2 & m2 & rest2 & Hc2 & Hm2)]];
    try done; try (rewrite H1 in H2; by destruct H2);
    try (rewrite H2 in H1; by destruct H1); try congruence.
Qed.

Lemma unified_functional (mapping : list (list N * fields))
    (records out1 out2 : list record) (nf1 nf2 : list (option value))
    (u1 u2 : nat) :
  unified mapping records out1 nf1 u1 →
  unified mapping records out2 nf2 u2 →
  out1 = out2 ∧ nf1 = nf2 ∧ u1 = u2.
Proof.
  intros H1. revert out2 nf2 u2.
  induction H1 as [|rec rest out nf u Hno H1 IH
                   |rec rest out nf u name mk vals Hname Hhit Hvals H1 IH];
    intros out2 nf2 u2 H2; inversion H2; subst; try done.
  - by destruct (IH _ _ _ ltac:(eassumption)) as (-> & -> & ->).
  - exfalso. eapply Hno; eauto.
  - exfalso. eapply (ltac:(eassumption) : no_hit mapping rec); eauto.
  - destruct (IH _ _ _ ltac:(eassumption)) as (-> & -> & ->).
    assert (name0 = name) as -> by congruence.
    assert (mk0 = mk) as -> by (by eapply tier_hit_functional).
    assert (vals0 = vals) as -> by congruence. done.
Qed.

Lemma unified_again (mapping : list (list N * fields))
    (records out : list record) (nf : list (option value)) (u : nat) :
  (∀ mk vals, (mk, vals) ∈ mapping → py "nombre" ∉ vals.*1) →
  unified mapping records out nf u →
  unified mapping out out nf u.
Proof.
  intros Hnombre.
  induction 1 as [|rec rest out nf u Hno H1 IH
                  |rec rest out nf u name mk vals Hname Hhit Hvals H1 IH].
  - constructor.
  - by constructor.
  - assert (fill vals rec !! py "nombre" = Some (VStr name)) as Hname'.
    { rewrite fill_other; [done|].
      eapply Hnombre. by apply dict_get_elem_of. }
    rewrite <-(fill_fill vals rec) at 2. by econstructor.
Qed.

End UnifyAgain.

(** Running the enrichment on its own output changes nothing, provided
    no entry of [mapping] sets the field nombre (and the matcher only
    proposes candidates): the records are written back as they were
    read, and the same names are reported as not found. *)
Theorem unify_idempotent `{RT : Runtime} (mapping : list (list N * fields))
    (records out : list record) (rep : report) :
  proposes_candidates →
  (∀ mk vals, (mk, vals) ∈ mapping → py "nombre" ∉ vals.*1) →
  unify mapping records = Ok (out, rep) →
  ∃ rep', unify mapping out = Ok (out, rep')
          ∧ updated rep' = updated rep
          ∧ not_found rep' = not_found rep.
Proof.
  intros Hgcm Hnombre Hrun. unfold unify in *.
  destruct (unify_loop_unified mapping records report0 Hgcm)
    as (out0 & rep0 & nf & u & Hloop & Hun & Hnf & Hup).
  rewrite Hloop in Hrun. injection Hrun as -> ->.
  destruct (unify_loop_unified mapping out report0 Hgcm)
    as (out2 & rep2 & nf2 & u2 & Hloop2 & Hun2 & Hnf2 & Hup2).
  pose proof (unified_again mapping records out nf u Hnombre Hun) as Hfix.
  destruct (unified_functional _ _ _ _ _ _ _ _ Hfix Hun2) as (<- & <- & <-).
  exists rep2. split; [done|]. split; congruence.
Qed.

(** ** Finding a column *)

Section IndexBy.
Context (key : pystr → pystr).

Lemma index_by_fold_entries (columns : list pystr) (acc : list (list N * list N))
    (k col : pystr) :
  (k, col) ∈ foldl (λ d c, dict_set (key c) c d) acc columns →
  (k, col) ∈ acc ∨ (col ∈ columns ∧ key col = k).
Proof.
  revert acc. induction columns as [|c columns IH]; intros acc; simpl; [by left|].
  intros [Hacc|[? ?]]%IH; [|right; split; [by right|done]].
  apply dict_set_elem_of_key in Hacc as [[-> ->]|?]; [|by left].
  right. split; [left|done].
Qed.

Lemma index_by_entries (columns : list pystr) (k col : pystr) :
  (k, col) ∈ index_by key columns → col ∈ columns ∧ key col = k.
Proof. by intros [?%elem_of_nil|?]%index_by_fold_entries. Qed.

Lemma index_by_fold_other (columns : list pystr) (acc : list (list N * list N))
    (k : pystr) :
  Forall (λ c, key c ≠ k) columns →
  dict_get k (foldl (λ d c, dict_set (key c) c d) acc columns) = dict_get k acc.
Proof.
  intros Hcols. revert acc.
  induction Hcols as [|c columns Hc Hcols IH]; intros acc; simpl; [done|].
  by rewrite IH, dict_get_set_ne.
Qed.

Lemma index_by_last (pre post : list pystr) (col : pystr) :
  Forall (λ c, key c ≠ key col) post →
  dict_get (key col) (index_by key (pre ++ col :: post)) = Some col.
Proof.
  intros Hpost. unfold index_by. rewrite foldl_app. simpl.
  by rewrite index_by_fold_other, dict_get_set_eq.
Qed.

Lemma index_by_fold_keeps (columns : list pystr) (acc : list (list N * list N))
    (k : pystr) :
  is_Some (dict_get k acc) →
  is_Some (dict_get k (foldl (λ d c, dict_set (key c) c d) acc columns)).
Proof.
  revert acc. induction columns as [|c columns IH]; intros acc Hacc; simpl; [done|].
  apply IH. destruct (decide (key c = k)) as [<-|Hne].
  - by rewrite dict_get_set_eq.
  - by rewrite dict_get_set_ne.
Qed.

Lemma index_by_has_key (columns : list pystr) (col : pystr) :
  col ∈ columns → is_Some (dict_get (key col) (index_by key columns)).
Proof.
  unfold index_by. generalize (@nil (list N * list N)).
  induction columns as [|c columns IH]; intros acc; [by intros ?%elem_of_nil|].
  simpl. intros [->|Hin]%elem_of_cons; [|by apply IH].
  apply index_by_fold_keeps. by rewrite dict_get_set_eq.
Qed.

End IndexBy.

Section FindColumn.
Context `{RT : Runtime}.

Lemma str_in_refl (a : pystr) : str_in a a = true.
Proof. apply str_in_spec. exists [], []. by rewrite app_nil_r. Qed.

Lemma overlaps_refl (a : pystr) : overlaps a a = true.
Proof. unfold overlaps. by rewrite str_in_refl. Qed.

Lemma first_exact_Some (columns candidates : list pystr) (c : pystr) :
  first_exact columns candidates = Some c →
  ∃ pre post, candidates = pre ++ c :: post
              ∧ c ∈ columns ∧ Forall (λ x, x ∉ columns) pre.
Proof.
  induction candidates as [|x cs IH]; simpl; [done|].
  case_bool_decide as Hx.
  - intros [= ->]. by exists [], cs.
  - intros (pre & post & -> & ? & ?)%IH. exists (x :: pre), post.
    split; [done|]. split; [done|]. by constructor.
Qed.

Lemma first_exact_None (columns candidates : list pystr) :
  first_exact columns candidates = None ↔ Forall (λ x, x ∉ columns) candidates.
Proof.
  induction candidates as [|x cs IH]; simpl; [done|].
  case_bool_decide as Hx.
  - split; [done|]. by intros [? _]%Forall_cons.
  - rewrite IH. split; [by constructor|by intros [_ ?]%Forall_cons].
Qed.

Lemma first_lower_Some (d : list (list N * list N)) (candidates : list pystr)
    (col : pystr) :
  first_lower d candidates = Some col →
  ∃ pre c post, candidates = pre ++ c :: post
                ∧ dict_get (str_lower c) d = Some col
                ∧ Forall (λ x, dict_get (str_lower x) d = None) pre.
Proof.
  induction candidates as [|x cs IH]; simpl; [done|].
  destruct (dict_get (str_lower x) d) as [y|] eqn:Hx.
  - intros [= ->]. by exists [], x, cs.
  - intros (pre & c & post & -> & ? & ?)%IH. exists (x :: pre), c, post.
    split; [done|]. split; [done|]. by constructor.
Qed.

Lemma first_lower_None (d : list (list N * list N)) (candidates : list pystr) :
  first_lower d candidates = None ↔
  Forall (λ x, dict_get (str_lower x) d = None) candidates.
Proof.
  induction candidates as [|x cs IH]; simpl; [done|].
  destruct (dict_get (str_lower x) d) as [y|] eqn:Hx.
  - split; [done|]. intros [? _]%Forall_cons. congruence.
  - rewrite IH. split; [by constructor|by intros [_ ?]%Forall_cons].
Qed.

Lemma first_overlapping_Some (nc : pystr) (items : list (list N * list N))
    (orig : pystr) :
  first_overlapping nc items = Some orig →
  ∃ ncol, (ncol, orig) ∈ items ∧ overlaps nc ncol = true.
Proof.
  induction items as [|[ncol o] items IH]; simpl; [done|].
  destruct (overlaps nc ncol) eqn:Ho.
  - intros [= ->]. exists ncol. split; [left|done].
  - intros (x & ? & ?)%IH. exists x. split; [by right|done].
Qed.

Lemma first_overlapping_None (nc : pystr) (items : list (list N * list N)) :
  first_overlapping nc items = None ↔
  Forall (λ item, overlaps nc item.1 = false) items.
Proof.
  induction items as [|[ncol o] items IH]; simpl; [done|].
  destruct (overlaps nc ncol) eqn:Ho.
  - split; [done|]. intros [? _]%Forall_cons. simpl in *. congruence.
  - rewrite IH. split; [by constructor|by intros [_ ?]%Forall_cons].
Qed.

Lemma first_contained_Some (items : list (list N * list N))
    (candidates : list pystr) (orig : pystr) :
  first_contained items candidates = Some orig →
  ∃ c ncol, c ∈ candidates ∧ (ncol, orig) ∈ items
            ∧ overlaps (normalize_key c) ncol = true.
Proof.
  induction candidates as [|x cs IH]; simpl; [done|].
  destruct (first_overlapping (normalize_key x) items) as [o|] eqn:Hx.
  - intros [= ->]. apply first_overlapping_Some in Hx as (ncol & ? & ?).
    exists x, ncol. split; [left|done].
  - intros (c & ncol & ? & ? & ?)%IH. exists c, ncol. split; [by right|done].
Qed.

Lemma first_contained_None (items : list (list N * list N))
    (candidates : list pystr) :
  first_contained items candidates = None ↔
  Forall (λ c, Forall (λ item, overlaps (normalize_key c) item.1 = false) items)
    candidates.
Proof.
  induction candidates as [|x cs IH]; simpl; [done|].
  destruct (first_overlapping (normalize_key x) items) as [o|] eqn:Hx.
  - split; [done|]. intros [Hno%first_overlapping_None _]%Forall_cons. congruence.
  - apply first_overlapping_None in Hx. rewrite IH.
    split; [by constructor|by intros [_ ?]%Forall_cons].
Qed.

Lemma first_keyword_column_Some (key : pystr) (columns : list pystr) (col : pystr) :
  first_keyword_column key columns = Some col →
  col ∈ columns ∧ overlaps key (normalize_key col) = true.
Proof.
  induction columns as [|x columns IH]; simpl; [done|].
  destruct (overlaps key (normalize_key x)) eqn:Ho.
  - intros [= ->]. split; [left|done].
  - intros [? ?]%IH. split; [by right|done].
Qed.

Lemma first_keyword_Some (columns candidates : list pystr) (col : pystr) :
  first_keyword columns candidates = Some col →
  ∃ c, c ∈ candidates ∧ col ∈ columns
       ∧ overlaps (normalize_key c) (normalize_key col) = true.
Proof.
  induction candidates as [|x cs IH]; simpl; [done|].
  destruct (first_keyword_column (normalize_key x) columns) as [o|] eqn:Hx.
  - intros [= ->]. apply first_keyword_column_Some in Hx as [? ?].
    exists x. split; [left|done].
  - intros (c & ? & ? & ?)%IH. exists c. split; [by right|done].
Qed.

Lemma find_column_cases (columns candidates : list pystr) :
  (∃ col c, _find_first_existing_column columns candidates = Column col
            ∧ col ∈ columns ∧ c ∈ candidates
            ∧ overlaps (normalize_key c) (normalize_key col) = true)
  ∨ (_find_first_existing_column columns candidates = Ninguna_columna candidates
     ∧ first_contained (index_by normalize_key columns) candidates = None).
Proof.
  unfold _find_first_existing_column.
  destruct (first_exact columns candidates) as [c|] eqn:H1.
  { left. apply first_exact_Some in H1 as (pre & post & -> & Hc & _).
    exists c, c. split; [done|]. split; [done|].
    split; [apply elem_of_app; right; left|apply overlaps_refl]. }
  destruct (first_lower _ candidates) as [col|] eqn:H2.
  { left. apply first_lower_Some in H2 as (pre & c & post & -> & Hget & _).
    apply dict_get_elem_of, index_by_entries in Hget as [Hcol Hlow].
    exists col, c. split; [done|]. split; [done|].
    split; [apply elem_of_app; right; left|].
    unfold normalize_key. rewrite Hlow. apply overlaps_refl. }
  destruct (first_contained _ candidates) as [orig|] eqn:H3.
  { left. apply first_contained_Some in H3 as (c & ncol & Hc & Hitem & Ho).
    apply index_by_entries in Hitem as [Horig <-].
    by exists orig, c. }
  destruct (first_keyword columns candidates) as [col|] eqn:H4; [|by right].
  left. apply first_keyword_Some in H4 as (c & ? & ? & ?). by exists col, c.
Qed.

Lemma first_contained_None_no_overlap (columns candidates : list pystr) :
  first_contained (index_by normalize_key columns) candidates = None →
  no_overlap columns candidates.
Proof.
  intros Hnone%first_contained_None c col Hc Hcol.
  eapply Forall_forall in Hnone; [|exact Hc].
  destruct (index_by_has_key normalize_key columns col Hcol) as [orig Horig].
  apply dict_get_elem_of in Horig.
  eapply Forall_forall in Hnone; [|exact Horig]. done.
Qed.

End FindColumn.

(** A call of [_find_first_existing_column] raises exactly when no
    candidate and no column have keys (lower case, letters a to z and
    digits only) of which one contains the other; so it raises on a
    frame without columns and for an empty list of candidates. *)
Theorem find_column_raises_iff `{RT : Runtime} (columns candidates : list pystr) :
  (_find_first_existing_column columns candidates = Ninguna_columna candidates
   ↔ no_overlap columns candidates)
  ∧ (columns = [] ∨ candidates = [] →
     _find_first_existing_column columns candidates = Ninguna_columna candidates).
Proof.
  assert (_find_first_existing_column columns candidates = Ninguna_columna candidates
          ↔ no_overlap columns candidates) as Hiff.
  { destruct (find_column_cases columns candidates)
      as [(col & c & Hres & Hcol & Hc & Ho)|[Hres Hnone]].
    - rewrite Hres. split; [done|]. intros Hno. rewrite (Hno c col) in Ho; done.
    - split; [|done]. intros _. by apply first_contained_None_no_overlap. }
  split; [done|]. intros [-> | ->]; apply Hiff; intros c col Hc Hcol.
  - by apply elem_of_nil in Hcol.
  - by apply elem_of_nil in Hc.
Qed.

(** What [_find_first_existing_column] returns is a column of the
    frame, and its key and the key of some candidate contain one
    another. *)
Theorem find_column_returns_column `{RT : Runtime}
    (columns candidates : list pystr) (col : pystr) :
  _find_first_existing_column columns candidates = Column col →
  col ∈ columns
  ∧ ∃ c, c ∈ candidates
         ∧ overlaps (normalize_key c) (normalize_key col) = true.
Proof.
  destruct (find_column_cases columns candidates)
    as [(col' & c & -> & Hcol & Hc & Ho)|[-> _]]; [|done].
  intros [= <-]. split; [done|]. by exists c.
Qed.

(** The first candidate that is a column name, letter for letter, is
    returned, whatever the other passes would find. *)
Theorem find_column_exact_first `{RT : Runtime}
    (columns pre post : list pystr) (c : pystr) :
  c ∈ columns →
  Forall (λ x, x ∉ columns) pre →
  _find_first_existing_column columns (pre ++ c :: post) = Column c.
Proof.
  intros Hc Hpre. unfold _find_first_existing_column.
  assert (first_exact columns (pre ++ c :: post) = Some c) as ->; [|done].
  induction Hpre as [|x pre Hx Hpre IH]; simpl.
  - by rewrite bool_decide_eq_true_2.
  - by rewrite bool_decide_eq_false_2.
Qed.

(** When no candidate is a column name letter for letter, the first
    candidate that equals a column name up to case selects, among the
    columns it equals up to case, the last one. *)
Theorem find_column_case_last `{RT : Runtime}
    (cpre cpost pre post : list pystr) (c col : pystr) :
  let columns := cpre ++ col :: cpost in
  Forall (λ x, x ∉ columns) (pre ++ c :: post) →
  Forall (λ x, Forall (λ y, str_lower y ≠ str_lower x) columns) pre →
  str_lower col = str_lower c →
  Forall (λ y, str_lower y ≠ str_lower c) cpost →
  _find_first_existing_column columns (pre ++ c :: post) = Column col.
Proof.
  intros columns Hexact Hpre Hcol Hlast. unfold _find_first_existing_column.
  rewrite (proj2 (first_exact_None _ _) Hexact).
  assert (first_lower (index_by str_lower columns) (pre ++ c :: post) = Some col)
    as ->; [|done].
  induction Hpre as [|x pre Hx Hpre IH]; simpl.
  - unfold columns. rewrite <-Hcol, index_by_last; [done|]. by rewrite Hcol.
  - unfold index_by at 1. rewrite index_by_fold_other by done. simpl.
    apply IH. by apply Forall_cons in Hexact as [_ ?].
Qed.

(** A column whose name has no letter a to z and no digit, once in
    lower case, has the empty key, which every key contains: with such
    a column in the frame, a call with at least one candidate never
    raises. *)
Theorem find_column_empty_key `{RT : Runtime}
    (columns candidates : list pystr) (col : pystr) :
  col ∈ columns →
  normalize_key col = [] →
  candidates ≠ [] →
  ∃ x, _find_first_existing_column columns candidates = Column x ∧ x ∈ columns.
Proof.
  intros Hcol Hkey Hcand.
  destruct (find_column_cases columns candidates)
    as [(x & c & Hres & Hx & _)|[_ Hnone]]; [by exists x|].
  apply first_contained_None_no_overlap in Hnone.
  destruct candidates as [|c cs]; [done|].
  specialize (Hnone c col ltac:(left) Hcol). rewrite Hkey in Hnone.
  unfold overlaps in Hnone.
  assert (str_in [] (normalize_key c) = true) as Hin
    by (apply str_in_spec, empty_substring).
  rewrite Hin, orb_true_r in Hnone. done.
Qed.

(** ** Sanitised and fresh column names *)

Section Sanitize.
Context `{RT : Runtime}.

Lemma separators_to_underscore_chars (s : pystr) (c : codepoint) :
  c ∈ separators_to_underscore s → c = 95 ∨ (c ∈ s ∧ is_separator c = false).
Proof.
  induction s as [|x s IH]; simpl; [by intros ?%elem_of_nil|].
  destruct (is_separator x) eqn:Hx.
  - destruct (starts_separator s).
    + intros [?|[? ?]]%IH; [by left|]. right. split; [by right|done].
    + intros [->|[?|[? ?]]%IH]%elem_of_cons; [by left|by left|].
      right. split; [by right|done].
  - intros [->|[?|[? ?]]%IH]%elem_of_cons; [|by left|].
    + right. split; [left|done].
    + right. split; [by right|done].
Qed.

Lemma separators_to_underscore_none (s : pystr) :
  Forall (λ c, is_separator c = false) s → separators_to_underscore s = s.
Proof. induction 1 as [|c s Hc Hs IH]; simpl; [done|]. by rewrite Hc, IH. Qed.

Lemma strip_no_blank (s : pystr) :
  Forall (λ c, isspace c = false) s → strip s = s.
Proof.
  intros Hs. apply strip_word.
  - destruct Hs; [done|]. done.
  - apply Forall_reverse in Hs. destruct Hs; [done|]. done.
Qed.

(** The characters of a sanitised name. *)
Lemma sanitize_chars (name : pystr) :
  isspace 95 = false →
  Forall (λ c, is_separator c = false ∧ c ∉ py "()[],") (_sanitize_col_name name).
Proof.
  intros Hus. apply Forall_forall. intros c.
  unfold _sanitize_col_name.
  intros [Hbr [->|[_ ?]]%separators_to_underscore_chars]%list_elem_of_filter;
    [|done].
  split; [|done]. unfold is_separator. by rewrite Hus.
Qed.

End Sanitize.

(** A sanitised column name holds no blank, no slash, no backslash, no
    round or square bracket and no comma. (The underscore is not
    whitespace.) *)
Theorem sanitize_col_name_clean `{RT : Runtime} (name : pystr) :
  isspace 95 = false →
  Forall (λ c, isspace c = false ∧ c ∉ py "/\()[],") (_sanitize_col_name name).
Proof.
  intros Hus. eapply Forall_impl; [by apply sanitize_chars|].
  intros c [Hsep Hbr]. unfold is_separator in Hsep.
  apply orb_false_iff in Hsep as [[Hsp H47]%orb_false_iff H92].
  apply bool_decide_eq_false in H47, H92.
  split; [done|].
  intros [->|[->|Hin]%elem_of_cons]%elem_of_cons; [done..|].
  apply Hbr. exact Hin.
Qed.

(** Sanitising a sanitised column name changes nothing. *)
Theorem sanitize_col_name_idempotent `{RT : Runtime} (name : pystr) :
  isspace 95 = false →
  _sanitize_col_name (_sanitize_col_name name) = _sanitize_col_name name.
Proof.
  intros Hus. pose proof (sanitize_chars name Hus) as Hchars.
  set (out := _sanitize_col_name name) in *.
  unfold _sanitize_col_name at 1.
  rewrite strip_no_blank; last first.
  { eapply Forall_impl; [exact Hchars|]. intros c [Hsep _].
    unfold is_separator in Hsep.
    by apply orb_false_iff in Hsep as [[? _]%orb_false_iff _]. }
  rewrite separators_to_underscore_none; last first.
  { eapply Forall_impl; [exact Hchars|]. by intros c [? _]. }
  apply filter_all. eapply Forall_impl; [exact Hchars|]. by intros c [_ ?].
Qed.

Section FreshNames.
Context `{RT : Runtime}.

Lemma py_inj (s1 s2 : string) : py s1 = py s2 → s1 = s2.
Proof.
  unfold py. intros Heq.
  assert (list_ascii_of_string s1 = list_ascii_of_string s2) as Hl.
  { revert Heq. generalize (list_ascii_of_string s1) (list_ascii_of_string s2).
    induction l as [|a l IH]; intros [|b k]; simpl; try done.
    intros [= Hab Hlk]. f_equal; [|by apply IH].
    by rewrite <-(ascii_N_embedding a), <-(ascii_N_embedding b), Hab. }
  by rewrite <-(string_of_list_ascii_of_string s1),
             <-(string_of_list_ascii_of_string s2), Hl.
Qed.

Lemma with_suffix_inj (base_name : pystr) (i j : nat) :
  with_suffix base_name i = with_suffix base_name j → i = j.
Proof.
  unfold with_suffix. intros Heq%app_inv_head. simpl in Heq.
  injection Heq as Heq. by apply py_inj, (inj pretty) in Heq.
Qed.

Lemma with_suffix_ne_base (base_name : pystr) (i : nat) :
  with_suffix base_name i ≠ base_name.
Proof.
  unfold with_suffix. intros Heq.
  rewrite <-(app_nil_r base_name) in Heq at 2. by apply app_inv_head in Heq.
Qed.

(** When the loop gives up, every name it tried is taken. *)
Lemma free_name_None (fuel : nat) (base_name : pystr) (suffix : nat)
    (sanitized : pystr) (columns : list pystr) :
  free_name fuel base_name suffix sanitized columns = None →
  sanitized ∈ columns
  ∧ ∀ i, (suffix ≤ i < suffix + fuel)%nat → with_suffix base_name i ∈ columns.
Proof.
  revert suffix sanitized. induction fuel as [|fuel IH]; intros suffix sanitized;
    simpl; case_bool_decide as Hin; try done.
  - intros _. split; [done|]. intros i. lia.
  - intros [Hs Hrest]%IH. split; [done|]. intros i Hi.
    destruct (decide (i = suffix)) as [->|Hne]; [done|]. apply Hrest. lia.
Qed.

(** What the loop settles on is not taken; it is the name it started
    with or that name with a suffix, and every earlier suffix is
    taken. *)
Lemma free_name_Some (fuel : nat) (base_name : pystr) (suffix : nat)
    (sanitized y : pystr) (columns : list pystr) :
  free_name fuel base_name suffix sanitized columns = Some y →
  (y ∉ columns)
  ∧ ((y = sanitized ∧ sanitized ∉ columns)
     ∨ (sanitized ∈ columns
        ∧ ∃ i, (suffix ≤ i)%nat ∧ y = with_suffix base_name i
               ∧ ∀ j, (suffix ≤ j < i)%nat → with_suffix base_name j ∈ columns)).
Proof.
  revert suffix sanitized. induction fuel as [|fuel IH]; intros suffix sanitized;
    simpl; case_bool_decide as Hin; try done.
  - intros [= <-]. split; [done|]. by left.
  - intros [Hy [[-> Hfree]|(Htaken & i & Hi & -> & Hbefore)]]%IH.
    + split; [done|]. right. split; [done|]. exists suffix.
      split; [done|]. split; [done|]. intros j. lia.
    + split; [done|]. right. split; [done|]. exists i.
      split; [lia|]. split; [done|]. intros j Hj.
      destruct (decide (j = suffix)) as [->|Hne]; [done|]. apply Hbefore. lia.
  - intros [= <-]. split; [done|]. by left.
Qed.

Lemma free_name_enough (fuel : nat) (base_name : pystr) (suffix : nat)
    (columns : list pystr) :
  (length columns ≤ fuel)%nat →
  is_Some (free_name fuel base_name suffix base_name columns).
Proof.
  intros Hfuel.
  destruct (free_name fuel base_name suffix base_name columns) eqn:Hf;
    [by eexists|].
  apply free_name_None in Hf as [Hbase Hsuf]. exfalso.
  set (tried := base_name :: (with_suffix base_name <$> seq suffix fuel)).
  assert (NoDup tried) as Hnd.
  { constructor.
    - intros (i & Hi & _)%list_elem_of_fmap. symmetry in Hi.
      by apply with_suffix_ne_base in Hi.
    - apply NoDup_fmap_2; [|apply NoDup_seq].
      intros i j. apply with_suffix_inj. }
  assert (∀ x, x ∈ tried → x ∈ columns) as Hsub.
  { intros x [->|(i & -> & Hi%elem_of_seq)%list_elem_of_fmap]%elem_of_cons;
      [done|]. apply Hsuf. lia. }
  pose proof (submseteq_length _ _ (NoDup_submseteq _ _ Hnd Hsub)) as Hlen.
  unfold tried in Hlen. simpl in Hlen. rewrite length_fmap, length_seq in Hlen.
  lia.
Qed.

Lemma extra_columns_distinct_from (fuel : nat) (mapped_cols : list (option pystr))
    (columns norm : list pystr) :
  NoDup norm →
  (length norm + length columns ≤ fuel)%nat →
  ∃ out, extra_columns fuel mapped_cols columns norm = Some out
         ∧ NoDup out
         ∧ norm `prefix_of` out
         ∧ (length out
            = length norm + length (filter (λ c, Some c ∉ mapped_cols) columns))%nat.
Proof.
  revert norm. induction columns as [|col rest IH]; intros norm Hnd Hfuel; simpl.
  { exists norm. rewrite Nat.add_0_r. by repeat split. }
  simpl in Hfuel. case_bool_decide as Hmapped.
  - destruct (IH norm Hnd ltac:(lia)) as (out & Hout & ? & ? & Hlen).
    exists out. rewrite filter_cons_False by (by intros ?). by repeat split.
  - destruct (free_name_enough fuel (_sanitize_col_name col) 1 norm ltac:(lia))
      as [x Hx].
    rewrite Hx. simpl.
    apply free_name_Some in Hx as [Hfresh _].
    destruct (IH (norm ++ [x])) as (out & Hout & ? & Hpre & Hlen).
    { apply NoDup_app. split; [done|]. split; [|apply NoDup_singleton].
      by intros y Hy ->%list_elem_of_singleton. }
    { rewrite length_app. simpl. lia. }
    exists out. rewrite filter_cons_True by done.
    split; [done|]. split; [done|]. split.
    + etrans; [|exact Hpre]. by apply prefix_app_r.
    + rewrite Hlen, length_app. simpl. lia.
Qed.

End FreshNames.

(** The name given to an extra column is not yet a column of the
    normalised frame: it is the sanitised name when that is free, and
    otherwise the sanitised name with the least suffix _1, _2, ... that
    makes it free; as many turns as there are columns always suffice. *)
Theorem free_name_least_suffix `{RT : Runtime}
    (fuel : nat) (base_name : pystr) (columns : list pystr) :
  (length columns ≤ fuel)%nat →
  ∃ name,
    free_name fuel base_name 1 base_name columns = Some name
    ∧ (name ∉ columns)
    ∧ ((name = base_name ∧ base_name ∉ columns)
       ∨ (base_name ∈ columns
          ∧ ∃ i, (1 ≤ i)%nat ∧ name = with_suffix base_name i
                 ∧ ∀ j, (1 ≤ j < i)%nat → with_suffix base_name j ∈ columns)).
Proof.
  intros Hfuel.
  destruct (free_name_enough fuel base_name 1 columns Hfuel) as [name Hname].
  exists name. split; [done|]. by apply free_name_Some in Hname.
Qed.

(** The extra columns never overwrite a column: whatever the raw
    frame's columns are, the normalised frame keeps its five standard
    columns first, gets one more column for each raw column that was
    not mapped, and has pairwise distinct column names. *)
Theorem extra_columns_distinct `{RT : Runtime}
    (fuel : nat) (mapped_cols : list (option pystr)) (columns : list pystr) :
  (5 + length columns ≤ fuel)%nat →
  ∃ out,
    extra_columns fuel mapped_cols columns standard_columns = Some out
    ∧ NoDup out
    ∧ standard_columns `prefix_of` out
    ∧ (length out
       = 5 + length (filter (λ c, Some c ∉ mapped_cols) columns))%nat.
Proof.
  intros Hfuel. apply extra_columns_distinct_from; [|done].
  apply (bool_decide_unpack _). vm_compute. exact I.
Qed.

(** ** The properties at work *)

Section FurtherExamples.
Local Existing Instance Excerpt.runtime.

Lemma norm_to_key_index_witness :
  dict_get (py "otamendi") (build_norm_to_key Excerpt.mapping_two_spellings)
  = Some (py "OTAMENDI").
Proof.
  destruct (norm_to_key_index Excerpt.mapping_two_spellings) as (_ & _ & Hlast & _).
  assert (normalize_name (VStr (py "OTAMENDI")) = py "otamendi") as Hn
    by (vm_compute; reflexivity).
  rewrite <-Hn.
  apply (Hlast [py "Otamendi"] (py "OTAMENDI") []).
  - reflexivity.
  - rewrite Hn. discriminate.
  - constructor.
Defined.

Lemma unify_idempotent_witness :
  ∃ out rep rep',
    unify Excerpt.mapping_otamendi Excerpt.records_four = Ok (out, rep)
    ∧ unify Excerpt.mapping_otamendi out = Ok (out, rep')
    ∧ updated rep' = updated rep
    ∧ not_found rep' = not_found rep.
Proof.
  destruct (unify_loop_unified Excerpt.mapping_otamendi Excerpt.records_four
              report0 excerpt_proposes_candidates)
    as (out & rep & _ & _ & Hrun & _).
  destruct (unify_idempotent Excerpt.mapping_otamendi Excerpt.records_four
              out rep excerpt_proposes_candidates) as (rep' & Hagain & Hup & Hnf).
  - intros mk vals Hin.
    eapply (Forall_forall (λ e : list N * list (list N * list N),
                             py "nombre" ∉ e.2.*1)) in Hin; [exact Hin|].
    apply (bool_decide_unpack _). vm_compute. exact I.
  - exact Hrun.
  - exists out, rep, rep'. split; [exact Hrun|]. split; [exact Hagain|].
    split; [exact Hup|exact Hnf].
Defined.

(** A column with a trailing blank is found by its key. *)
Example find_column_by_key :
  _find_first_existing_column Excerpt.columns_padded [py "Nombre"]
  = Column (py "nombre ")
  ∧ _find_first_existing_column Excerpt.columns_padded [py "Tipo"; py "Clase"]
    = Ninguna_columna [py "Tipo"; py "Clase"].
Proof. vm_compute. done. Qed.

Lemma find_column_returns_column_witness :
  py "nombre " ∈ Excerpt.columns_padded
  ∧ ∃ c, c ∈ [py "Nombre"]
         ∧ overlaps (normalize_key c) (normalize_key (py "nombre ")) = true.
Proof.
  apply (find_column_returns_column Excerpt.columns_padded [py "Nombre"]).
  vm_compute. reflexivity.
Defined.

Lemma find_column_exact_first_witness :
  _find_first_existing_column Excerpt.columns_tipo [py "Tipo"; py "Tipo de reserva"]
  = Column (py "Tipo de reserva").
Proof.
  apply (find_column_exact_first Excerpt.columns_tipo [py "Tipo"] []).
  - left.
  - apply (bool_decide_unpack _). vm_compute. exact I.
Defined.

Lemma find_column_case_last_witness :
  _find_first_existing_column Excerpt.columns_two_cases [py "nombre"]
  = Column (py "Nombre").
Proof.
  apply (find_column_case_last [py "NOMBRE"] [] [] [] (py "nombre") (py "Nombre")).
  - apply (bool_decide_unpack _). vm_compute. exact I.
  - constructor.
  - vm_compute. reflexivity.
  - constructor.
Defined.

Lemma find_column_empty_key_witness :
  ∃ x, _find_first_existing_column Excerpt.columns_enie [py "Nombre"] = Column x
       ∧ x ∈ Excerpt.columns_enie.
Proof.
  apply (find_column_empty_key Excerpt.columns_enie [py "Nombre"] [209]).
  - left.
  - vm_compute. reflexivity.
  - discriminate.
Defined.

(** Blanks and slashes become underscores, brackets go. *)
Example sanitize_col_name_run :
  _sanitize_col_name (py " Superficie (Ha) / total ") = py "Superficie_Ha_total".
Proof. vm_compute. reflexivity. Qed.

Lemma sanitize_col_name_clean_witness :
  Forall (λ c, isspace c = false ∧ c ∉ py "/\()[],")
    (_sanitize_col_name (py " Superficie (Ha) / total ")).
Proof. apply sanitize_col_name_clean. reflexivity. Defined.

Lemma sanitize_col_name_idempotent_witness :
  _sanitize_col_name (_sanitize_col_name (py " Superficie (Ha) / total "))
  = _sanitize_col_name (py " Superficie (Ha) / total ").
Proof. apply sanitize_col_name_idempotent. reflexivity. Defined.

(** A raw column named tipo that was not mapped gets the name tipo_1;
    the mapped columns are left out. *)
Example extra_columns_run :
  extra_columns 9 [Some (py "Nombre"); Some (py "Municipio"); None; None]
    Excerpt.columns_raw standard_columns
  = Some (standard_columns ++ [py "tipo_1"; py "Superficie_Ha_total"]).
Proof. vm_compute. reflexivity. Qed.

Lemma free_name_least_suffix_witness :
  ∃ name,
    free_name 5 (py "tipo") 1 (py "tipo") standard_columns = Some name
    ∧ (name ∉ standard_columns)
    ∧ ((name = py "tipo" ∧ py "tipo" ∉ standard_columns)
       ∨ (py "tipo" ∈ standard_columns
          ∧ ∃ i, (1 ≤ i)%nat ∧ name = with_suffix (py "tipo") i
                 ∧ ∀ j, (1 ≤ j < i)%nat →
                     with_suffix (py "tipo") j ∈ standard_columns)).
Proof. apply free_name_least_suffix. vm_compute. lia. Defined.

Lemma extra_columns_distinct_witness :
  ∃ out,
    extra_columns 9 [Some (py "Nombre"); Some (py "Municipio"); None; None]
      Excerpt.columns_raw standard_columns = Some out
    ∧ NoDup out
    ∧ standard_columns `prefix_of` out
    ∧ (length out
       = 5 + length (filter (λ c, Some c ∉ [Some (py "Nombre"); Some (py "Municipio");
                                             None; None])
                       Excerpt.columns_raw))%nat.
Proof. apply extra_columns_distinct. vm_compute. lia. Defined.

End FurtherExamples.

(** ** More on loading and on the exact tier of the enrichment *)

Lemma index_nodes_Raise (l : list node) (acc : gmap (list N) node) (e : error) :
  index_nodes l acc = Raise e →
  e = KeyError (py "id") ∧ ∃ n, n ∈ l ∧ node_id n = None.
Proof.
  revert acc. induction l as [|n l IH]; intros acc; simpl; [done|].
  destruct (node_id n) as [i|] eqn:Hi.
  - intros (? & m & ? & ?)%IH. split; [done|]. exists m. split; [by right|done].
  - intros [= <-]. split; [done|]. exists n. split; [left|done].
Qed.

Lemma index_nodes_Ok (l : list node) (acc idx : gmap (list N) node) :
  index_nodes l acc = Ok idx → Forall (λ n, is_Some (node_id n)) l.
Proof.
  revert acc. induction l as [|n l IH]; intros acc; simpl; [constructor|].
  destruct (node_id n) as [i|] eqn:Hi; [|done].
  intros ?%IH. constructor; [by rewrite Hi|done].
Qed.

(** Loading succeeds exactly on a definition that has nodes, each with
    an id, and then the index holds the ids of the nodes and no other;
    it fails with the [KeyError] of the missing key, nodes or id. *)
Theorem load_bot_result (d : bot_definition) :
  match load_bot d with
  | Ok g =>
      ∃ nodes, def_nodes d = Some nodes
               ∧ Forall (λ n, is_Some (node_id n)) nodes
               ∧ ∀ i, is_Some (nodes_index g !! i)
                      ↔ ∃ n, n ∈ nodes ∧ node_id n = Some i
  | Raise e =>
      (def_nodes d = None ∧ e = KeyError (py "nodes"))
      ∨ (∃ nodes n, def_nodes d = Some nodes ∧ n ∈ nodes ∧ node_id n = None
                    ∧ e = KeyError (py "id"))
  end.
Proof.
  unfold load_bot. destruct (def_nodes d) as [nodes|]; [|by left].
  destruct (index_nodes nodes ∅) as [idx|e] eqn:Hidx; simpl.
  - exists nodes. split; [done|]. split; [by eapply index_nodes_Ok|].
    intros i. split.
    + intros [n Hn].
      destruct (index_nodes_lookup _ _ _ _ _ Hidx Hn) as [[? ?]|?]; [|done].
      by exists n.
    + intros (n & Hn & Hi). destruct (idx !! i) eqn:Hnone; [by eexists|].
      apply (index_nodes_absent nodes idx i Hidx) in Hnone.
      by eapply Forall_forall in Hnone.
  - right. apply index_nodes_Raise in Hidx as (-> & n & ? & ?). by exists nodes, n.
Qed.

Section ExactTier.
Context `{RT : Runtime}.

Lemma unified_lookup_fill (mapping : list (list N * fields))
    (records out : list record) (nf : list (option value)) (u : nat)
    (i : nat) (rec : record) :
  unified mapping records out nf u →
  records !! i = Some rec →
  (no_hit mapping rec ∧ out !! i = Some rec)
  ∨ (∃ name mk vals,
       rec !! py "nombre" = Some (VStr name)
       ∧ tier_hit mapping name mk
       ∧ dict_get mk mapping = Some vals
       ∧ out !! i = Some (fill vals rec)).
Proof.
  intros Hun. revert i.
  induction Hun as [|r rest out nf u Hno Hun IH
                    |r rest out nf u name mk vals Hname Hhit Hvals Hun IH];
    intros [|i]; simpl; try done.
  - intros [= ->]. by left.
  - apply IH.
  - intros [= ->]. right. by exists name, mk, vals.
  - apply IH.
Qed.

End ExactTier.

(** A record whose name is a key of [mapping], letter for letter, is
    written back with the fields of that very entry, whatever its
    normalised name is indexed to. *)
Theorem unify_exact_key `{RT : Runtime} (mapping : list (list N * fields))
    (records out : list record) (rep : report) (i : nat) (rec : record)
    (name : pystr) (vals : fields) :
  proposes_candidates →
  unify mapping records = Ok (out, rep) →
  records !! i = Some rec →
  rec !! py "nombre" = Some (VStr name) →
  dict_get name mapping = Some vals →
  out !! i = Some (fill vals rec).
Proof.
  intros Hgcm Hrun Hi Hname Hvals. unfold unify in Hrun.
  destruct (unify_loop_unified mapping records report0 Hgcm)
    as (out0 & rep0 & nf & u & Hloop & Hun & _).
  rewrite Hloop in Hrun. injection Hrun as -> ->.
  assert (tier_hit mapping name name) as Hexact.
  { left. by rewrite Hvals. }
  destruct (unified_lookup_fill _ _ _ _ _ i rec Hun Hi)
    as [[Hno _]|(name' & mk & vals' & Hname' & Hhit & Hvals' & Hout)].
  - by destruct (Hno name name Hname Hexact).
  - assert (name' = name) as -> by congruence.
    assert (mk = name) as -> by (by eapply tier_hit_functional).
    congruence.
Qed.

Section ExactTierExamples.
Local Existing Instance Excerpt.runtime.

(** The record named Otamendi gets the entry of the key Otamendi,
    though the normalised name otamendi is indexed to OTAMENDI. *)
Lemma unify_exact_key_witness :
  ∃ out rep,
    unify Excerpt.mapping_two_spellings Excerpt.records_four = Ok (out, rep)
    ∧ out !! 0%nat
      = Some (fill [(py "Fuente", py "La Nacion")]
                (Excerpt.named (py "Otamendi") (py "a"))).
Proof.
  destruct (unify_loop_unified Excerpt.mapping_two_spellings Excerpt.records_four
              report0 excerpt_proposes_candidates)
    as (out & rep & _ & _ & Hrun & _).
  exists out, rep. split; [exact Hrun|].
  apply (unify_exact_key Excerpt.mapping_two_spellings Excerpt.records_four
           out rep 0 _ (py "Otamendi"));
    [exact excerpt_proposes_candidates|exact Hrun|reflexivity..].
Defined.

End ExactTierExamples.

Section FindColumnExamples.
Local Existing Instance Excerpt.runtime.

(** A frame without columns has no column for any candidate. *)
Lemma find_column_raises_iff_witness :
  _find_first_existing_column [] [py "Nombre"] = Ninguna_columna [py "Nombre"].
Proof.
  apply (proj2 (find_column_raises_iff [] [py "Nombre"])). by left.
Defined.

End FindColumnExamples.
